(** * Flauta: a shallow embedding of the recorder-tutor web application

    The development follows the TypeScript sources file by file:
    - [types.ts]                    the MIDI data model ([Note], [Track], [MidiData]);
    - [components/SheetMusic.tsx]   staff positions ([getNoteY]) and note highlighting,
                                    together with the piano-roll renderer;
    - [App.tsx]                     the built-in song and the playback handlers;
    - [services/geminiService.ts]   the single request to the hosted model and its
                                    fallback payload.

    JavaScript numbers are modelled by the canonical rationals [Qc], with
    exact arithmetic.  The numbers the program computes with (beats, half
    seconds, staff steps, pixel offsets) are small dyadic rationals, on which
    double arithmetic is exact as well; the rounding of doubles, NaN and the
    infinities are not represented. *)

From stdpp Require Import gmap strings list numbers pretty sorting lexico.
From Stdlib Require Import QArith Qcanon Qround Lqa.

Open Scope Qc_scope.

(** ** The JavaScript runtime *)

Module JS.

Definition number : Type := Qc.

(** A numeric literal of the source. *)
Definition num (q : Q) : number := Q2Qc q.

(** An integer used as a number. *)
Definition of_Z (z : Z) : number := Q2Qc (inject_Z z).

(** The integer a number denotes, when it denotes one.  Property keys and
    array indices are looked up through it. *)
Definition as_integer (x : number) : option Z :=
  if decide (Qden (this x) = 1%positive) then Some (Qnum (this x)) else None.

(** [o[k]] for an object literal whose keys are integers: a number that is
    not one of the keys yields [undefined]. *)
Definition get_property {V} (o : gmap Z V) (k : number) : option V :=
  i ← as_integer k; o !! i.

(** [a[i]] for an array: [undefined] outside the bounds. *)
Definition get_index {V} (a : list V) (i : Z) : option V :=
  if decide (0 ≤ i)%Z then a !! Z.to_nat i else None.

(** [x || d] on numbers: zero is falsy. *)
Definition or_default (x : option number) (d : number) : number :=
  match x with
  | Some v => if decide (v = 0) then d else v
  | None => d
  end.

(** [!s] for a string that may be [undefined]. *)
Definition falsy (s : option string) : bool :=
  match s with
  | None => true
  | Some s => bool_decide (s = "")
  end.

(** [Math.floor]. *)
Definition floor (x : number) : Z := Qfloor (this x).

(** [Array.from(new Set(l))]: the first occurrence of each element, in
    order of insertion. *)
Definition Set_from (l : list string) : list string :=
  fold_left (λ acc x, if decide (x ∈ acc) then acc else acc ++ [x]) l [].

(** Whether a byte continues a multi-byte UTF-8 sequence. *)
Definition continuation (b : N) : bool := ((128 <=? b) && (b <? 192))%N.

(** The UTF-16 code units of a string.  Strings are held as UTF-8 bytes:
    sequences of one to three bytes give one code unit, a sequence of four
    bytes gives a pair of surrogates; a byte that starts no sequence (which
    the encoding of a JavaScript string does not contain) counts for
    itself. *)
Fixpoint code_units (s : string) : list N :=
  match s with
  | EmptyString => []
  | String a0 s1 =>
      let b0 := Ascii.N_of_ascii a0 in
      if (b0 <? 128)%N then b0 :: code_units s1
      else
        match s1 with
        | String a1 s2 =>
            let b1 := Ascii.N_of_ascii a1 in
            if ((192 <=? b0) && (b0 <? 224))%N && continuation b1
            then ((b0 - 192) * 64 + (b1 - 128))%N :: code_units s2
            else
              match s2 with
              | String a2 s3 =>
                  let b2 := Ascii.N_of_ascii a2 in
                  if ((224 <=? b0) && (b0 <? 240))%N
                     && continuation b1 && continuation b2
                  then ((b0 - 224) * 4096 + (b1 - 128) * 64 + (b2 - 128))%N
                         :: code_units s3
                  else
                    match s3 with
                    | String a3 s4 =>
                        let b3 := Ascii.N_of_ascii a3 in
                        if ((240 <=? b0) && (b0 <? 248))%N
                           && continuation b1 && continuation b2 && continuation b3
                        then
                          let v := ((b0 - 240) * 262144 + (b1 - 128) * 4096
                                    + (b2 - 128) * 64 + (b3 - 128) - 65536)%N in
                          (55296 + v / 1024)%N :: (56320 + v mod 1024)%N
                            :: code_units s4
                        else b0 :: code_units s1
                    | EmptyString => b0 :: code_units s1
                    end
              | EmptyString => b0 :: code_units s1
              end
        | EmptyString => [b0]
        end
  end.

(** What strings are compared by: their code units, and after them their
    bytes, which only tell apart byte strings that are not UTF-8. *)
Definition sort_key (s : string) : list N * list N :=
  (code_units s, Ascii.N_of_ascii <$> String.list_ascii_of_string s).

(** [!(s2 < s1)] on strings: the lexicographic order of the code units, a
    proper prefix coming first. *)
Definition code_unit_le (s1 s2 : string) : Prop :=
  ¬ lexico (sort_key s2) (sort_key s1).

#[global] Instance code_unit_le_dec : RelDecision code_unit_le :=
  λ s1 s2, not_dec (decide (lexico (sort_key s2) (sort_key s1))).

(** [l.sort()] with the default comparison, which orders strings by their
    code units. *)
Definition sort (l : list string) : list string := merge_sort code_unit_le l.

(** [l.join(sep)]. *)
Fixpoint join (sep : string) (l : list string) : string :=
  match l with
  | [] => ""
  | [x] => x
  | x :: l' => x +:+ sep +:+ join sep l'
  end.

Fixpoint zeros (n : nat) : string :=
  match n with
  | O => ""
  | S n' => "0" +:+ zeros n'
  end.

(** [Math.max], [Math.min] and [Math.ceil]. *)
Definition Math_max (a b : number) : number := if decide (a ≤ b) then b else a.
Definition Math_min (a b : number) : number := if decide (a ≤ b) then a else b.
Definition Math_ceil (x : number) : Z := Qceiling (this x).

Section Printing.

(** [Number::toString] outside the integers up to 2^53: the shortest
    digit string that reads back as the same double (padded with zeros, or
    with an exponent from 10^21 on), which the runtime provides. *)
Variable Number_toString_other : number → string.

(** [String(x)], also the conversion a template literal applies. *)
Definition Number_toString (x : number) : string :=
  match as_integer x with
  | Some z => if decide (Z.abs z ≤ 2 ^ 53)%Z then pretty z
              else Number_toString_other x
  | None => Number_toString_other x
  end.

(** [x.toFixed(f)] (ECMAScript, Number.prototype.toFixed): the sign, then
    the integer [n] closest to [|x| * 10^f] (the larger one on a tie), its
    digits padded to [f + 1] places and split before the last [f]. *)
Definition toFixed (x : number) (f : nat) : string :=
  let s := if decide (x < 0) then "-" else "" in
  let a := if decide (x < 0) then - x else x in
  if decide (num 1e21 ≤ a) then s +:+ Number_toString a
  else
    let n := Qfloor (this a * inject_Z (10 ^ Z.of_nat f) + (1 # 2))%Q in
    let m := pretty n in
    let k := String.length m in
    let m' := if decide (k ≤ f)%nat then zeros (f + 1 - k) +:+ m else m in
    let k' := String.length m' in
    match f with
    | O => s +:+ m'
    | _ => s +:+ String.substring 0 (k' - f) m' +:+ "."
             +:+ String.substring (k' - f) f m'
    end.

End Printing.

End JS.

Import JS.

(** ** types.ts *)

Module Note.
Record t := mk {
  name : string;
  midi : number;
  time : number;
  duration : number;
  velocity : number
}.
End Note.

Module Instrument.
Record t := mk { family : string; name : string }.
End Instrument.

Module Track.
Record t := mk {
  name : string;
  notes : list Note.t;
  instrument : Instrument.t
}.
End Track.

Module Tempo.
Record t := mk { bpm : number }.
End Tempo.

Module TimeSignature.
Record t := mk { timeSignature : list number }.
End TimeSignature.

Module Header.
Record t := mk {
  name : string;
  tempos : list Tempo.t;
  timeSignatures : list TimeSignature.t
}.
End Header.

Module MidiData.
Record t := mk {
  header : Header.t;
  duration : number;
  tracks : list Track.t
}.
End MidiData.

Module AnalysisResult.
Record t := mk {
  difficulty : string;
  tips : list string;
  description : string
}.
End AnalysisResult.

(** ** components/SheetMusic.tsx *)

Module SheetMusic.

Definition PIXELS_PER_SECOND : number := num 100.
Definition STAFF_LINE_HEIGHT : number := num 10.
Definition STAFF_TOP_Y : number := num 60.
Definition NOTE_RADIUS_X : number := num 6.
Definition NOTE_RADIUS_Y : number := num 5.

Definition referenceNote : Z := 77.
Definition staffSteps : list Z := [0; 2; 4; 5; 7; 9; 11]%Z.

(** The manual map of [getNoteY], from MIDI pitch to steps below the top
    line of the staff. *)
Definition map : gmap Z number :=
  list_to_map
    [ (86%Z, num (-4.5));
      (84%Z, num (-3.5));
      (83%Z, num (-3));
      (81%Z, num (-2));
      (79%Z, num (-1));
      (77%Z, num 0);
      (76%Z, num 0.5);
      (74%Z, num 1);
      (72%Z, num 1.5);
      (71%Z, num 2);
      (69%Z, num 2.5);
      (67%Z, num 3);
      (65%Z, num 3.5);
      (64%Z, num 4);
      (62%Z, num 4.5);
      (60%Z, num 5);
      (59%Z, num 5.5) ].

Definition getNoteY (midiNote : number) : number :=
  let visualStep :=
    match get_property map midiNote with
    | Some v => v
    | None => (num 77 - midiNote) * num 0.5
    end in
  STAFF_TOP_Y + visualStep * STAFF_LINE_HEIGHT.

(** [l.sort((a, b) => a.time - b.time)]: a stable sort by start time. *)
Fixpoint insertByTime (x : Note.t) (l : list Note.t) : list Note.t :=
  match l with
  | [] => [x]
  | y :: l' => if decide (Note.time x ≤ Note.time y) then x :: y :: l'
               else y :: insertByTime x l'
  end.

Definition sortByTime (l : list Note.t) : list Note.t :=
  foldr insertByTime [] l.

(** The notes of all tracks, flattened and ordered by time: what is drawn. *)
Definition notes (midiData : MidiData.t) : list Note.t :=
  sortByTime (MidiData.tracks midiData ≫= Track.notes).

Definition isActive (currentTime : number) (note : Note.t) : bool :=
  bool_decide (Note.time note ≤ currentTime)
  && bool_decide (currentTime < Note.time note + Note.duration note).

Inductive StemDirection := up | down.

Definition stemDirection (note : Note.t) : StemDirection :=
  if decide (num 71 ≤ Note.midi note) then down else up.

(** The fill colour of the note head. *)
Definition noteHeadFill (currentTime : number) (note : Note.t) : string :=
  if isActive currentTime note then "#22c55e" else "#1e293b".

Definition noteX (note : Note.t) : number :=
  num 100 + Note.time note * PIXELS_PER_SECOND.

(** What the loop over the notes draws for each of them: the centre of the
    note head and its fill colour. *)
Definition noteHeads (midiData : MidiData.t) (currentTime : number)
  : list (number * number * string) :=
  (λ note, (noteX note, getNoteY (Note.midi note), noteHeadFill currentTime note))
    <$> notes midiData.


Definition stemLength : number := num 28.

(** The stem of a note head at [(x, y)]: its x position and the y of its
    tip; it starts at the y of the head. *)
Definition stem (note : Note.t) (x y : number) : number * number :=
  match stemDirection note with
  | up => (x + NOTE_RADIUS_X - num 1, y - stemLength)
  | down => (x - NOTE_RADIUS_X + num 1, y + stemLength)
  end.

(** The y position of the note-name label. *)
Definition labelY (note : Note.t) (y : number) : number :=
  match stemDirection note with
  | up => y + num 20
  | down => y - num 10
  end.


(** The x positions of the bar lines, one for each index of
    [Array.from({ length: Math.ceil(duration / 2) + 1 })]. *)
Definition barLines (midiData : MidiData.t) : list number :=
  (λ i : nat, num 100 + of_Z (Z.of_nat i) * num 2 * PIXELS_PER_SECOND)
    <$> seq 0 (Z.to_nat (Math_ceil (MidiData.duration midiData / num 2) + 1)).

(** The y positions of the five staff lines; they run from x = 20 to
    [totalWidth - 20]. *)
Definition staffLines : list number :=
  (λ i : Z, STAFF_TOP_Y + of_Z i * STAFF_LINE_HEIGHT) <$> [0; 1; 2; 3; 4]%Z.

(** The y positions of the ledger lines drawn with a note. *)
Definition ledgerLines (note : Note.t) : list number :=
  (if decide (Note.midi note = num 60) then [getNoteY (num 60)] else [])
  ++ (if decide (Note.midi note = num 81) then [getNoteY (num 81)] else []).

(** The x position of the playhead line. *)
Definition playheadX (currentTime : number) : number :=
  num 100 + currentTime * PIXELS_PER_SECOND.


End SheetMusic.

(** ** The piano-roll renderer (second component of the same file) *)

Module PianoRoll.

Definition PIXELS_PER_SECOND : number := num 100.
Definition NOTE_HEIGHT : number := num 20.
Definition KEY_WIDTH : number := num 60.

Definition noteNames : list string :=
  ["C"; "C#"; "D"; "D#"; "E"; "F"; "F#"; "G"; "G#"; "A"; "A#"; "B"].

(** What a template literal prints for a value that may be [undefined]. *)
Definition template (s : option string) : string := default "undefined" s.

(** The label of the row of [midiNote], an integer since rows are counted
    down from [maxMidi].  [%] is the remainder that takes the sign of the
    dividend. *)
Definition rowLabel (midiNote : Z) : string :=
  let noteName := get_index noteNames (Z.rem midiNote 12) in
  let octave := (floor (of_Z midiNote / num 12)%Qc - 1)%Z in
  template noteName +:+ pretty octave.

Definition playheadX : number := KEY_WIDTH + num 50.

(** The notes of all tracks, in track order. *)
Definition allNotes (midiData : MidiData.t) : list Note.t :=
  MidiData.tracks midiData ≫= Track.notes.

Definition isPlayingNote (currentTime : number) (note : Note.t) : bool :=
  bool_decide (Note.time note ≤ currentTime)
  && bool_decide (currentTime < Note.time note + Note.duration note).

(** One iteration of the loop that draws the notes: [None] when the note
    is skipped as off screen, otherwise the fill colour of its rectangle. *)
Definition drawNote (canvasWidth currentTime : number) (note : Note.t)
  : option string :=
  let scrollOffset := currentTime * PIXELS_PER_SECOND in
  let startX := playheadX + Note.time note * PIXELS_PER_SECOND - scrollOffset in
  let width := Note.duration note * PIXELS_PER_SECOND in
  if decide (startX + width < 0 ∨ canvasWidth < startX) then None
  else Some (if isPlayingNote currentTime note then "#22c55e" else "#3b82f6").


(** The pitch range found by the [forEach] over the notes, starting from
    [minMidi = 127] and [maxMidi = 0]. *)
Definition midiRange (allNotes : list Note.t) : number * number :=
  fold_left
    (λ acc n,
       (if decide (Note.midi n < acc.1) then Note.midi n else acc.1,
        if decide (acc.2 < Note.midi n) then Note.midi n else acc.2))
    allNotes (num 127, num 0).

(** The vertical layout of the canvas: the padded pitch range, the number
    of rows and the height of the canvas (which has a parent element). *)
Record Layout := mkLayout {
  minMidi : number;
  maxMidi : number;
  noteRange : number;
  canvasHeight : number
}.

(** The effect returns before drawing when there is no data or no note. *)
Definition layout (midiData : option MidiData.t) : option Layout :=
  match midiData with
  | None => None
  | Some d =>
      match allNotes d with
      | [] => None
      | notes =>
          let range := midiRange notes in
          let minMidi := Math_max (num 0) (range.1 - num 2) in
          let maxMidi := Math_min (num 127) (range.2 + num 2) in
          let noteRange := maxMidi - minMidi + num 1 in
          Some {| minMidi := minMidi; maxMidi := maxMidi; noteRange := noteRange;
                  canvasHeight := Math_max (num 300) (noteRange * NOTE_HEIGHT) |}
      end
  end.

(** The rows of the background: for [i = 0, 1, ...] below [noteRange], the
    pitch [maxMidi - i] drawn at [y = i * NOTE_HEIGHT]. *)
Definition rows (l : Layout) : list (number * number) :=
  (λ i : nat, (maxMidi l - of_Z (Z.of_nat i), of_Z (Z.of_nat i) * NOTE_HEIGHT))
    <$> seq 0 (Z.to_nat (Math_ceil (noteRange l))).

Definition startX (currentTime : number) (note : Note.t) : number :=
  playheadX + Note.time note * PIXELS_PER_SECOND - currentTime * PIXELS_PER_SECOND.

Definition width (note : Note.t) : number := Note.duration note * PIXELS_PER_SECOND.

Record Rect := mkRect {
  rect_x : number;
  rect_y : number;
  rect_w : number;
  rect_h : number;
  rect_fill : string;
  rect_stroke : string
}.

(** One iteration of the loop that draws the notes, with the geometry of
    the rounded rectangle. *)
Definition noteRect (canvasWidth currentTime : number) (l : Layout) (note : Note.t)
  : option Rect :=
  let rowIndex := maxMidi l - Note.midi note in
  let y := rowIndex * NOTE_HEIGHT + num 2 in
  let h := NOTE_HEIGHT - num 4 in
  let startX := startX currentTime note in
  let width := width note in
  if decide (startX + width < 0 ∨ canvasWidth < startX) then None
  else
    let isPlayingNote := isPlayingNote currentTime note in
    Some {| rect_x := startX; rect_y := y;
            rect_w := Math_max width (num 4); rect_h := h;
            rect_fill := if isPlayingNote then "#22c55e" else "#3b82f6";
            rect_stroke := if isPlayingNote then "#15803d" else "#1d4ed8" |}.

End PianoRoll.

(** ** Exceptions and state

    Handlers mutate refs and component state and may throw; an [async]
    function turns a thrown exception into a rejected promise. *)

Module Eff.

Inductive Exception :=
| Error (message : string)
| TypeError (message : string)
| SyntaxError (message : string)
| Rejection (reason : string).

(** A computation over a store [S]: the store it leaves behind, with the
    value returned or the exception thrown. *)
Definition M (S A : Type) : Type := S → (Exception + A) * S.

Definition ret {S A} (a : A) : M S A := λ s, (inr a, s).

Definition bind {S A B} (c : M S A) (k : A → M S B) : M S B :=
  λ s, match c s with
       | (inr a, s') => k a s'
       | (inl e, s') => (inl e, s')
       end.

Definition throw {S A} (e : Exception) : M S A := λ s, (inl e, s).

Definition get {S} : M S S := λ s, (inr s, s).

Definition modify {S} (f : S → S) : M S unit := λ s, (inr tt, f s).

(** [try { c } catch (error) { h error }]. *)
Definition try_catch {S A} (c : M S A) (h : Exception → M S A) : M S A :=
  λ s, match c s with
       | (inr a, s') => (inr a, s')
       | (inl e, s') => h e s'
       end.

(** [a[0]] followed by a property access: a [TypeError] on an empty array. *)
Definition first_of {S A} (what : string) (l : list A) : M S A :=
  match l with
  | x :: _ => ret x
  | [] => throw (TypeError ("Cannot read properties of undefined (reading '" +:+ what +:+ "')"))
  end.

Inductive Promise (A : Type) :=
| Resolved (a : A)
| Rejected (e : Exception).
Arguments Resolved {A} a.
Arguments Rejected {A} e.

(** The promise an [async] function body settles, and the store after it. *)
Definition async {S A} (c : M S A) (s : S) : Promise A * S :=
  match c s with
  | (inr a, s') => (Resolved a, s')
  | (inl e, s') => (Rejected e, s')
  end.

End Eff.

Import Eff.

#[global] Instance M_ret {S} : MRet (M S) := λ A, @Eff.ret S A.
#[global] Instance M_bind {S} : MBind (M S) := λ A B k c, @Eff.bind S A B c k.

(** ** The part of Tone.js the application drives *)

Module Tone.

Inductive PlaybackState := started | stopped | paused.

(** [Tone.Transport]: its position ([seconds]) follows the audio clock and
    is an input of the handler that reads it. *)
Record Transport := mkTransport {
  state : PlaybackState;
  bpm : number
}.

(** An element of the array handed to [new Tone.Part]. *)
Record PartEvent := mkEvent {
  time : number;
  note : string;
  duration : number;
  velocity : number
}.

(** A part after [.start(at)]; [dispose] leaves the object in the ref. *)
Record Part := mkPart {
  events : list PartEvent;
  startedAt : number;
  disposed : bool
}.

Definition dispose (p : Part) : Part :=
  {| events := events p; startedAt := startedAt p; disposed := true |}.

Record Envelope := mkEnvelope {
  attack : number;
  decay : number;
  sustain : number;
  release : number
}.

Record PolySynth := mkSynth {
  oscillator : string;
  envelope : Envelope;
  volume : number;
  vibrato : number * number
}.

(** The arguments of one [triggerAttackRelease] call. *)
Record Trigger := mkTrigger {
  tr_note : string;
  tr_duration : number;
  tr_time : number;
  tr_velocity : number
}.

Definition stop (t : Transport) : Transport :=
  {| state := stopped; bpm := bpm t |}.
Definition pause (t : Transport) : Transport :=
  {| state := paused; bpm := bpm t |}.
Definition start (t : Transport) : Transport :=
  {| state := started; bpm := bpm t |}.
Definition set_bpm (v : number) (t : Transport) : Transport :=
  {| state := state t; bpm := v |}.

End Tone.

(** ** App.tsx *)

Module App.

(** Component state ([useState]) and refs ([useRef]). *)
Record State := mkState {
  midiData : option MidiData.t;
  isPlaying : bool;
  playbackRate : number;
  currentTime : number;
  isReady : bool;
  audioStarted : bool;
  synthsRef : list Tone.PolySynth;
  partRef : option Tone.Part;
  transportRef : Tone.Transport
}.

Definition setMidiData (d : MidiData.t) (s : State) : State :=
  mkState (Some d) (isPlaying s) (playbackRate s) (currentTime s) (isReady s)
          (audioStarted s) (synthsRef s) (partRef s) (transportRef s).
Definition setIsPlaying (b : bool) (s : State) : State :=
  mkState (midiData s) b (playbackRate s) (currentTime s) (isReady s)
          (audioStarted s) (synthsRef s) (partRef s) (transportRef s).
Definition setPlaybackRate (r : number) (s : State) : State :=
  mkState (midiData s) (isPlaying s) r (currentTime s) (isReady s)
          (audioStarted s) (synthsRef s) (partRef s) (transportRef s).
Definition setCurrentTime (t : number) (s : State) : State :=
  mkState (midiData s) (isPlaying s) (playbackRate s) t (isReady s)
          (audioStarted s) (synthsRef s) (partRef s) (transportRef s).
Definition setIsReady (b : bool) (s : State) : State :=
  mkState (midiData s) (isPlaying s) (playbackRate s) (currentTime s) b
          (audioStarted s) (synthsRef s) (partRef s) (transportRef s).
Definition setAudioStarted (s : State) : State :=
  mkState (midiData s) (isPlaying s) (playbackRate s) (currentTime s) (isReady s)
          true (synthsRef s) (partRef s) (transportRef s).
Definition setSynths (l : list Tone.PolySynth) (s : State) : State :=
  mkState (midiData s) (isPlaying s) (playbackRate s) (currentTime s) (isReady s)
          (audioStarted s) l (partRef s) (transportRef s).
Definition setPart (p : option Tone.Part) (s : State) : State :=
  mkState (midiData s) (isPlaying s) (playbackRate s) (currentTime s) (isReady s)
          (audioStarted s) (synthsRef s) p (transportRef s).
Definition onTransport (f : Tone.Transport → Tone.Transport) (s : State) : State :=
  mkState (midiData s) (isPlaying s) (playbackRate s) (currentTime s) (isReady s)
          (audioStarted s) (synthsRef s) (partRef s) (f (transportRef s)).

(** The state of the first render; Tone's transport starts stopped at
    120 BPM. *)
Definition initial : State :=
  {| midiData := None; isPlaying := false; playbackRate := num 1;
     currentTime := num 0; isReady := false; audioStarted := false;
     synthsRef := []; partRef := None;
     transportRef := Tone.mkTransport Tone.stopped (num 120) |}.

(** *** loadUserSong *)

Definition bpm : number := num 120.
Definition quarter : number := num 60 / bpm.

Definition createNote (name : string) (midi startBeat durationBeats : number)
  : Note.t :=
  {| Note.name := name;
     Note.midi := midi;
     Note.time := startBeat * quarter;
     Note.duration := durationBeats * quarter;
     Note.velocity := num 0.8 |}.

Definition notes : list Note.t :=
  [
    createNote "E4" (num 64) (num 0) (num 1);
    createNote "E4" (num 64) (num 1) (num 1);
    createNote "F4" (num 65) (num 2) (num 1);
    createNote "G4" (num 67) (num 3) (num 1);
    createNote "G4" (num 67) (num 4) (num 1);
    createNote "F4" (num 65) (num 5) (num 1);
    createNote "E4" (num 64) (num 6) (num 1);
    createNote "D4" (num 62) (num 7) (num 1);
    createNote "C4" (num 60) (num 8) (num 1);
    createNote "C4" (num 60) (num 9) (num 1);
    createNote "D4" (num 62) (num 10) (num 1);
    createNote "E4" (num 64) (num 11) (num 1);
    createNote "E4" (num 64) (num 12) (num 1.5);
    createNote "D4" (num 62) (num 13.5) (num 0.5);
    createNote "D4" (num 62) (num 14) (num 2);
    createNote "E4" (num 64) (num 16) (num 1);
    createNote "E4" (num 64) (num 17) (num 1);
    createNote "F4" (num 65) (num 18) (num 1);
    createNote "G4" (num 67) (num 19) (num 1);
    createNote "G4" (num 67) (num 20) (num 1);
    createNote "F4" (num 65) (num 21) (num 1);
    createNote "E4" (num 64) (num 22) (num 1);
    createNote "D4" (num 62) (num 23) (num 1);
    createNote "C4" (num 60) (num 24) (num 1);
    createNote "C4" (num 60) (num 25) (num 1);
    createNote "D4" (num 62) (num 26) (num 1);
    createNote "E4" (num 64) (num 27) (num 1);
    createNote "D4" (num 62) (num 28) (num 1.5);
    createNote "C4" (num 60) (num 29.5) (num 0.5);
    createNote "C4" (num 60) (num 30) (num 2)
  ].

Definition songData : MidiData.t :=
  {| MidiData.header :=
       {| Header.name := "Canción para Estudiar";
          Header.tempos := [ {| Tempo.bpm := bpm |} ];
          Header.timeSignatures :=
            [ {| TimeSignature.timeSignature := [num 4; num 4] |} ] |};
     MidiData.duration := num 32 * quarter;
     MidiData.tracks :=
       [ {| Track.name := "Flauta";
            Track.notes := notes;
            Track.instrument :=
              {| Instrument.family := "woodwind"; Instrument.name := "recorder" |} |} ] |}.

Definition loadUserSong : M State unit := modify (setMidiData songData).

(** *** setupSynthesizers *)

Definition fluteSynth : Tone.PolySynth :=
  {| Tone.oscillator := "sine";
     Tone.envelope := Tone.mkEnvelope (num 0.1) (num 0.2) (num 0.8) (num 0.5);
     Tone.volume := num (-6);
     Tone.vibrato := (num 4.5, num 0.1) |}.

Definition toPartEvent (n : Note.t) : Tone.PartEvent :=
  {| Tone.time := Note.time n;
     Tone.note := Note.name n;
     Tone.duration := Note.duration n;
     Tone.velocity := Note.velocity n |}.

(** The callback of the part: what the synth is asked to play when the
    transport reaches an event. *)
Definition partCallback (time : number) (value : Tone.PartEvent) : Tone.Trigger :=
  Tone.mkTrigger (Tone.note value) (Tone.duration value) time (Tone.velocity value).

Definition setupSynthesizers (data : MidiData.t) : M State unit :=
  modify (onTransport Tone.stop);;
  (* transport.cancel(): the schedule lives in the part, disposed next *)
  modify (λ s, setPart (Tone.dispose <$> partRef s) s);;
  modify (setSynths []);;
  modify (λ s, setSynths (synthsRef s ++ [fluteSynth]) s);;
  track ← first_of "notes" (MidiData.tracks data);
  let notesToPlay := toPartEvent <$> Track.notes track in
  modify (setPart (Some (Tone.mkPart notesToPlay (num 0) false)));;
  tempo ← first_of "bpm" (Header.tempos (MidiData.header data));
  modify (onTransport (Tone.set_bpm (Tempo.bpm tempo))).

(** *** The remaining handlers *)

Definition initializeAudio : M State unit :=
  s ← get;
  match isReady s, midiData s with
  | false, Some d =>
      modify setAudioStarted;;
      setupSynthesizers d;;
      modify (setIsReady true)
  | _, _ => mret tt
  end.

Definition togglePlay : M State unit :=
  s0 ← get;
  initializeAudio;;
  s ← get;
  match partRef s, midiData s0 with
  | None, Some d => setupSynthesizers d
  | _, _ => mret tt
  end;;
  (if isPlaying s0 then modify (onTransport Tone.pause)
   else modify (onTransport Tone.start));;
  modify (setIsPlaying (negb (isPlaying s0))).

Definition handleStop : M State unit :=
  modify (onTransport Tone.stop);;
  modify (setIsPlaying false);;
  modify (setCurrentTime (num 0)).

(** [rate] is [parseFloat(e.target.value)]. *)
Definition handleSpeedChange (rate : number) : M State unit :=
  modify (setPlaybackRate rate);;
  s ← get;
  match midiData s with
  | Some d =>
      tempo ← first_of "bpm" (Header.tempos (MidiData.header d));
      let originalBpm := Tempo.bpm tempo in
      modify (onTransport (Tone.set_bpm (originalBpm * rate)))
  | None => mret tt
  end.

(** One firing of the 16 ms interval; [seconds] is what
    [transportRef.current.seconds] reads at that moment. *)
Definition syncVisualizer (seconds : number) : M State unit :=
  s ← get;
  if isPlaying s then modify (setCurrentTime seconds) else mret tt.

(** The handlers a user or a timer can fire once the component is
    mounted. *)
Inductive Event :=
| TogglePlay
| Stop
| SpeedChange (rate : number)
| Tick (seconds : number).

Definition handle (e : Event) : M State unit :=
  match e with
  | TogglePlay => togglePlay
  | Stop => handleStop
  | SpeedChange r => handleSpeedChange r
  | Tick t => syncVisualizer t
  end.

(** The store a handler leaves, also when it throws. *)
Definition exec {A} (c : M State A) (s : State) : State := (c s).2.

(** States the component goes through: the mount effect runs
    [loadUserSong] first, events follow. *)
Inductive reachable : State → Prop :=
| reach_mount : reachable (exec loadUserSong initial)
| reach_event s e : reachable s → reachable (exec (handle e) s).



End App.

(** ** services/geminiService.ts *)

Module GeminiService.

(** What the service reads from its surroundings: the configured key and
    the answer of the hosted model to a request. *)
Record Request := mkRequest {
  model : string;
  contents : string;
  responseMimeType : string
}.

Record Response := mkResponse { text : option string }.

Record Env := mkEnv {
  API_KEY : option string;
  generateContent : Request → Exception + Response
}.

Record GoogleGenAI := mkClient { apiKey : string }.

(** What the service does to its surroundings: requests sent to the
    model and errors written to the console. *)
Record World := mkWorld {
  requests : list Request;
  console : list Exception
}.

Definition send (r : Request) (w : World) : World :=
  {| requests := requests w ++ [r]; console := console w |}.
Definition console_error (e : Exception) (w : World) : World :=
  {| requests := requests w; console := console w ++ [e] |}.

Definition newline : string := String (Ascii.ascii_of_nat 10) "".

(** The template literal of the prompt, line by line. *)
Definition prompt (uniqueNotes : list string) (tempo duration : string) : string :=
  join newline
    [ "";
      "      Actúa como un profesor experto de música para niños que aprenden Flauta Dulce (Recorder).";
      "      Analiza los siguientes datos de una canción MIDI:";
      "      - Notas usadas: " +:+ join ", " uniqueNotes;
      "      - Tempo original: " +:+ tempo +:+ " BPM";
      "      - Duración: " +:+ duration +:+ " segundos";
      "      ";
      "      Provee una respuesta estructurada en JSON con:";
      "      1. 'difficulty': Nivel de dificultad (Fácil, Intermedio, Avanzado) basado en las notas (ej. si usa sostenidos difíciles o notas muy agudas).";
      "      2. 'tips': Un array de 3 consejos breves y prácticos para tocar esta pieza en flauta dulce (ej. digitación de notas específicas, control de aire).";
      "      3. 'description': Una descripción muy breve y animada de qué parece ser la canción (basado en ritmo/notas) o simplemente palabras de ánimo.";
      "    " ].

(** The object literal returned by the [catch] branch. *)
Definition fallback : AnalysisResult.t :=
  {| AnalysisResult.difficulty := "Desconocida";
     AnalysisResult.tips :=
       [ "Practica despacio al principio.";
         "Asegúrate de tapar bien los agujeros.";
         "Disfruta la música." ];
     AnalysisResult.description :=
       "No pudimos conectar con el profesor virtual, ¡pero tú puedes hacerlo!" |}.

Section Service.

(** Runtime primitives: the values [JSON.parse] produces ([None] when it
    throws a [SyntaxError]) and number printing. *)
Variable Json : Type.
Variable JSON_parse : string → option Json.
Variable Number_toString_other : number → string.

Variable env : Env.

(** What the promise resolves with: the literal of the [catch] branch or
    whatever [JSON.parse] returned. *)
Inductive Analysis :=
| Literal (a : AnalysisResult.t)
| Parsed (j : Json).

Definition initGenAI : M World GoogleGenAI :=
  match API_KEY env with
  | Some k => if decide (k = "") then throw (Error "API Key is missing")
              else mret (mkClient k)
  | None => throw (Error "API Key is missing")
  end.

(** [ai.models.generateContent(request)], awaited. *)
Definition models_generateContent (ai : GoogleGenAI) (r : Request)
  : M World Response :=
  modify (send r);;
  match generateContent env r with
  | inl e => throw e
  | inr response => mret response
  end.

Definition uniqueNotes (track : Track.t) : list string :=
  let notes := Note.name <$> Track.notes track in
  JS.sort (Set_from notes).

Definition tempo (midiData : MidiData.t) : number :=
  or_default (Tempo.bpm <$> head (Header.tempos (MidiData.header midiData)))
             (num 120).

Definition duration (midiData : MidiData.t) : string :=
  toFixed Number_toString_other (MidiData.duration midiData) 2.

Definition request (prompt : string) : Request :=
  {| model := "gemini-2.5-flash";
     contents := prompt;
     responseMimeType := "application/json" |}.

(** From the track lookup to the finished prompt. *)
Definition buildPrompt (midiData : MidiData.t) : M World string :=
  track ← match MidiData.tracks midiData with
          | track :: _ => mret track
          | [] => throw (Error "No tracks found")
          end;
  mret (prompt (uniqueNotes track)
               (Number_toString Number_toString_other (tempo midiData))
               (duration midiData)).

(** The request a call sends when it gets as far as the model. *)
Definition requestFor (midiData : MidiData.t) : option Request :=
  track ← head (MidiData.tracks midiData);
  Some (request (prompt (uniqueNotes track)
                        (Number_toString Number_toString_other (tempo midiData))
                        (duration midiData))).

(** The statements of the [try] block that precede the model call. *)
Definition untilPrompt (midiData : MidiData.t) : M World (GoogleGenAI * string) :=
  ai ← initGenAI;
  prompt ← buildPrompt midiData;
  mret (ai, prompt).

Definition tryBlock (midiData : MidiData.t) : M World Analysis :=
  '(ai, prompt) ← untilPrompt midiData;
  response ← models_generateContent ai (request prompt);
  match text response with
  | Some text =>
      if decide (text = "") then throw (Error "No response from AI")
      else match JSON_parse text with
           | Some j => mret (Parsed j)
           | None => throw (SyntaxError "JSON.parse")
           end
  | None => throw (Error "No response from AI")
  end.

Definition analyzeMidiForStudents (midiData : MidiData.t)
  : World → Promise Analysis * World :=
  async (try_catch (tryBlock midiData)
                   (λ error, modify (console_error error);;
                             mret (Literal fallback))).

(** The ways the exchange can fail. *)
Inductive failure (midiData : MidiData.t) : Prop :=
| missing_key : falsy (API_KEY env) = true → failure midiData
| no_tracks : MidiData.tracks midiData = [] → failure midiData
| rejected_call r e :
    requestFor midiData = Some r →
    generateContent env r = inl e → failure midiData
| empty_text r response :
    requestFor midiData = Some r →
    generateContent env r = inr response →
    falsy (text response) = true → failure midiData
| unparsable r t :
    requestFor midiData = Some r →
    generateContent env r = inr (mkResponse (Some t)) →
    JSON_parse t = None → failure midiData.

(** The prompts sent to the model by one call, starting from [w]. *)
Definition promptsSent (midiData : MidiData.t) (w : World) : list string :=
  contents <$> drop (length (requests w))
                    (requests (analyzeMidiForStudents midiData w).2).

End Service.

Arguments Literal {Json} a.
Arguments Parsed {Json} j.

End GeminiService.

(** ** components/MusicTutor.tsx *)

Module MusicTutor.

Section Tutor.

Variable Json : Type.
Variable JSON_parse : string → option Json.
Variable Number_toString_other : number → string.
Variable env : GeminiService.Env.

(** Whether a value [JSON.parse] returned is truthy. *)
Variable Json_truthy : Json → bool.

Record State := mkState {
  analysis : option (GeminiService.Analysis Json);
  loading : bool;
  error : option string
}.

Definition initial : State :=
  {| analysis := None; loading := false; error := None |}.

Definition setAnalysis (a : GeminiService.Analysis Json) (s : State) : State :=
  {| analysis := Some a; loading := loading s; error := error s |}.
Definition setLoading (b : bool) (s : State) : State :=
  {| analysis := analysis s; loading := b; error := error s |}.
Definition setError (e : option string) (s : State) : State :=
  {| analysis := analysis s; loading := loading s; error := e |}.

(** The component state together with the surroundings of the service. *)
Definition Store : Type := State * GeminiService.World.

Definition onState (f : State → State) : M Store unit :=
  modify (λ st : Store, (f st.1, st.2)).

(** [await p]: the value of a resolved promise, the reason of a rejected
    one thrown. *)
Definition await {A} (p : GeminiService.World → Promise A * GeminiService.World)
  : M Store A :=
  λ st, match p st.2 with
        | (Resolved a, w) => (inr a, (st.1, w))
        | (Rejected e, w) => (inl e, (st.1, w))
        end.

(** [try { c } catch (err) { h } finally { f }]. *)
Definition try_catch_finally {A} (c : M Store A) (h : Exception → M Store A)
    (f : M Store unit) : M Store A :=
  λ st, match try_catch c h st with
        | (r, st') => match f st' with
                      | (inr _, st'') => (r, st'')
                      | (inl e, st'') => (inl e, st'')
                      end
        end.

Definition handleAnalyze (midiData : option MidiData.t) : M Store unit :=
  match midiData with
  | None => mret tt
  | Some d =>
      onState (setLoading true);;
      onState (setError None);;
      try_catch_finally
        (result ← await (GeminiService.analyzeMidiForStudents
                           Json JSON_parse Number_toString_other env d);
         onState (setAnalysis result))
        (λ err, onState (setError (Some "Hubo un error al consultar al profesor virtual.")))
        (onState (setLoading false))
  end.

(** [!analysis && !loading]: whether the button that starts the analysis
    is rendered. *)
Definition showButton (s : State) : bool :=
  negb (match analysis s with
        | None => false
        | Some (GeminiService.Literal _) => true
        | Some (GeminiService.Parsed j) => Json_truthy j
        end)
  && negb (loading s).

End Tutor.

Arguments analysis {Json} s.
Arguments loading {Json} s.
Arguments error {Json} s.

End MusicTutor.

(** * Vocabulary of the statements *)

Module Spec.

Import SheetMusic.

(** The pitches the staff map knows: the C-major notes from B3 to D6. *)
Definition mappedPitches : list Z :=
  [59; 60; 62; 64; 65; 67; 69; 71; 72; 74; 76; 77; 79; 81; 83; 84; 86]%Z.

(** The step count [getNoteY] uses for an integer pitch. *)
Definition visualStep (m : Z) : number :=
  match map !! m with
  | Some v => v
  | None => (num 77 - of_Z m) * num 0.5
  end.

(** The pitches of the built-in song. *)
Definition songPitches : list Z := [60; 62; 64; 65; 67]%Z.

(** The half-open interval during which a note sounds. *)
Definition sounding (t : number) (note : Note.t) : Prop :=
  Note.time note ≤ t ∧ t < Note.time note + Note.duration note.

(** The melody as written in the source: name, MIDI number, offset and
    length in beats. *)
Definition melody : list (string * Z * Q * Q) :=
  [
  ("E4", 64%Z, 0%Q, 1%Q);
  ("E4", 64%Z, 1%Q, 1%Q);
  ("F4", 65%Z, 2%Q, 1%Q);
  ("G4", 67%Z, 3%Q, 1%Q);
  ("G4", 67%Z, 4%Q, 1%Q);
  ("F4", 65%Z, 5%Q, 1%Q);
  ("E4", 64%Z, 6%Q, 1%Q);
  ("D4", 62%Z, 7%Q, 1%Q);
  ("C4", 60%Z, 8%Q, 1%Q);
  ("C4", 60%Z, 9%Q, 1%Q);
  ("D4", 62%Z, 10%Q, 1%Q);
  ("E4", 64%Z, 11%Q, 1%Q);
  ("E4", 64%Z, 12%Q, 1.5%Q);
  ("D4", 62%Z, 13.5%Q, 0.5%Q);
  ("D4", 62%Z, 14%Q, 2%Q);
  ("E4", 64%Z, 16%Q, 1%Q);
  ("E4", 64%Z, 17%Q, 1%Q);
  ("F4", 65%Z, 18%Q, 1%Q);
  ("G4", 67%Z, 19%Q, 1%Q);
  ("G4", 67%Z, 20%Q, 1%Q);
  ("F4", 65%Z, 21%Q, 1%Q);
  ("E4", 64%Z, 22%Q, 1%Q);
  ("D4", 62%Z, 23%Q, 1%Q);
  ("C4", 60%Z, 24%Q, 1%Q);
  ("C4", 60%Z, 25%Q, 1%Q);
  ("D4", 62%Z, 26%Q, 1%Q);
  ("E4", 64%Z, 27%Q, 1%Q);
  ("D4", 62%Z, 28%Q, 1.5%Q);
  ("C4", 60%Z, 29.5%Q, 0.5%Q);
  ("C4", 60%Z, 30%Q, 2%Q)
  ].

Definition noteOfBeats (row : string * Z * Q * Q) : Note.t :=
  let '(name, midi, beat, beats) := row in
  {| Note.name := name;
     Note.midi := of_Z midi;
     Note.time := num beat * num 0.5;
     Note.duration := num beats * num 0.5;
     Note.velocity := num 0.8 |}.

Definition pitchNames : list (string * Z) :=
  [("C4", 60); ("D4", 62); ("E4", 64); ("F4", 65); ("G4", 67)]%Z.

(** A computation that never replaces the loaded song, whether it returns
    or throws. *)
Definition keeps_song {A} (c : M App.State A) : Prop :=
  ∀ s, App.midiData (c s).2 = App.midiData s.

(** The three values the prompt is built from: the set of note names of
    a track, the BPM of the first tempo entry (120 when there is none), and
    the duration printed with two decimals ([GeminiService.duration]). *)
Definition noteNameSet (track : Track.t) : gset string :=
  list_to_set (Note.name <$> Track.notes track).

Definition firstBpm (midiData : MidiData.t) : number :=
  match Header.tempos (MidiData.header midiData) with
  | tempo :: _ => Tempo.bpm tempo
  | [] => num 120
  end.

(** The prompt as a function of those three values alone. *)
Definition promptOf (other : number → string)
    (names : gset string) (bpm : number) (duration : string) : string :=
  GeminiService.prompt
    (JS.sort (elements names))
    (Number_toString other (if decide (bpm = 0) then num 120 else bpm))
    duration.

(** A runtime in which numbers outside the integers print as a question
    mark and only the text [ok] parses; used to run examples. *)
Definition printOther (x : number) : string := "?".
Definition parseOk (t : string) : option unit :=
  if decide (t = "ok") then Some tt else None.

(** A surrounding with no API key, and one with a key whose model answers
    with the text [ok]. *)
Definition noKey : GeminiService.Env :=
  GeminiService.mkEnv None
    (λ _, inr (GeminiService.mkResponse (Some "ok"))).
Definition keyed : GeminiService.Env :=
  GeminiService.mkEnv (Some "k")
    (λ _, inr (GeminiService.mkResponse (Some "ok"))).

Definition freshWorld : GeminiService.World := GeminiService.mkWorld [] [].

(** What the answer of the model turns into after the call: the tail of
    the [try] block as a function of the answer. *)
Definition afterCall {Json} (JSON_parse : string → option Json)
    (answer : Exception + GeminiService.Response)
  : Exception + GeminiService.Analysis Json :=
  match answer with
  | inl e => inl e
  | inr response =>
      match GeminiService.text response with
      | Some t => if decide (t = "") then inl (Error "No response from AI")
                  else match JSON_parse t with
                       | Some j => inr (GeminiService.Parsed j)
                       | None => inl (SyntaxError "JSON.parse")
                       end
      | None => inl (Error "No response from AI")
      end
  end.

(** A second song for examples: the five names of the built-in melody in
    another order, with other times, lengths and velocities, another
    instrument, a second track, a different header name and a duration that
    prints as the same two decimals. *)
Definition otherSong : MidiData.t :=
  {| MidiData.header :=
       {| Header.name := "Otra";
          Header.tempos := [ {| Tempo.bpm := num 120 |}; {| Tempo.bpm := num 90 |} ];
          Header.timeSignatures := [] |};
     MidiData.duration := num 16.004;
     MidiData.tracks :=
       [ {| Track.name := "Piano";
            Track.notes :=
              [ Note.mk "G4" (num 67) (num 0) (num 3) (num 0.5);
                Note.mk "C4" (num 60) (num 3) (num 0.25) (num 1);
                Note.mk "F4" (num 65) (num 4) (num 1) (num 0.2);
                Note.mk "E4" (num 64) (num 5) (num 1) (num 0.2);
                Note.mk "D4" (num 62) (num 6) (num 2) (num 0.7);
                Note.mk "G4" (num 67) (num 9) (num 1) (num 0.7) ];
            Track.instrument :=
              {| Instrument.family := "piano"; Instrument.name := "grand" |} |};
         {| Track.name := "Bass";
            Track.notes := [ Note.mk "C2" (num 36) (num 0) (num 4) (num 1) ];
            Track.instrument :=
              {| Instrument.family := "bass"; Instrument.name := "electric" |} |} ] |}.

(** A song without tempo entries. *)
Definition noTempoSong : MidiData.t :=
  {| MidiData.header :=
       {| Header.name := "Sin tempo"; Header.tempos := []; Header.timeSignatures := [] |};
     MidiData.duration := num 2;
     MidiData.tracks :=
       [ {| Track.name := "Flauta";
            Track.notes := [ Note.mk "C4" (num 60) (num 0) (num 1) (num 0.8) ];
            Track.instrument :=
              {| Instrument.family := "woodwind"; Instrument.name := "recorder" |} |} ] |}.

(** The part [setupSynthesizers] builds for the built-in song. *)
Definition songPart : Tone.Part :=
  Tone.mkPart (App.toPartEvent <$> App.notes) (num 0) false.

(** What holds of the state of [App] after mounting: the built-in song is
    loaded, [isPlaying] says whether the transport runs, and the audio
    objects are either all absent or all set up for the song. *)
Definition consistent (s : App.State) : Prop :=
  App.midiData s = Some App.songData ∧
  (App.isPlaying s = true ↔ Tone.state (App.transportRef s) = Tone.started) ∧
  ((App.isReady s = false ∧ App.audioStarted s = false ∧
    App.partRef s = None ∧ App.synthsRef s = []) ∨
   (App.isReady s = true ∧ App.audioStarted s = true ∧
    App.partRef s = Some songPart ∧ App.synthsRef s = [App.fluteSynth])).

End Spec.

Import Spec.

(** * Properties *)

(** ** Numbers *)

Lemma num_eq (p q : Q) : (p == q)%Q → num p = num q.
Proof. intros H. apply Qc_is_canon. simpl. by rewrite H. Qed.

Lemma this_of_Z (z : Z) : this (of_Z z) = inject_Z z.
Proof. apply inject_Z_Qred. Qed.

Lemma as_integer_of_Z (z : Z) : as_integer (of_Z z) = Some z.
Proof. unfold as_integer. by rewrite this_of_Z. Qed.

Lemma get_property_of_Z {V} (o : gmap Z V) (z : Z) :
  get_property o (of_Z z) = o !! z.
Proof. unfold get_property. by rewrite as_integer_of_Z. Qed.

Lemma floor_div (z : Z) (d : positive) :
  floor (of_Z z / num (inject_Z (Z.pos d))) = (z `div` Z.pos d)%Z.
Proof.
  unfold floor.
  assert (this (of_Z z / num (inject_Z (Z.pos d))) == z # d)%Q as ->.
  { unfold Qcdiv, Qcmult, Qcinv, num, of_Z. simpl.
    rewrite !Qred_correct. unfold Qeq, Qmult, Qinv. simpl. lia. }
  reflexivity.
Qed.

(** ** Staff positions *)

Section StaffPositions.

Import SheetMusic.

Lemma map_dom : dom map = list_to_set mappedPitches.
Proof.
  unfold map. rewrite dom_list_to_map_L. unfold mappedPitches.
  apply set_eq. intros k. rewrite !elem_of_list_to_set. cbn [fmap list_fmap fst].
  rewrite !elem_of_cons, !elem_of_nil.
  split; intros H; repeat destruct H as [-> | H]; tauto.
Qed.

Lemma map_mapped (m : Z) : m ∈ mappedPitches ↔ is_Some (map !! m).
Proof. by rewrite <- elem_of_dom, map_dom, elem_of_list_to_set. Qed.

Lemma mappedPitches_range (m : Z) : m ∈ mappedPitches → (59 ≤ m ≤ 86)%Z.
Proof.
  unfold mappedPitches. rewrite !elem_of_cons, elem_of_nil.
  intros H. repeat destruct H as [-> | H]; lia.
Qed.

(** C1. For every integer pitch [m], [getNoteY] is
    [STAFF_TOP_Y + s * STAFF_LINE_HEIGHT] with the constants 60 and 10,
    where [s] is the entry of the 17-entry map when [m] is one of the mapped
    pitches (all between 59 and 86) and [(77 - m) * 0.5] otherwise. *)
Theorem getNoteY_table_or_linear (m : Z) :
  STAFF_TOP_Y = num 60 ∧ STAFF_LINE_HEIGHT = num 10 ∧
  size map = 17%nat ∧ length mappedPitches = 17%nat ∧
  (∀ k, is_Some (map !! k) ↔ k ∈ mappedPitches) ∧
  (∀ k, k ∈ mappedPitches → (59 ≤ k ≤ 86)%Z) ∧
  ∃ s : number,
    getNoteY (of_Z m) = STAFF_TOP_Y + s * STAFF_LINE_HEIGHT ∧
    (m ∈ mappedPitches → map !! m = Some s) ∧
    (m ∉ mappedPitches → s = (num 77 - of_Z m) * num 0.5).
Proof.
  split_and!; try done.
  - intros k. by rewrite map_mapped.
  - apply mappedPitches_range.
  - exists (visualStep m). unfold getNoteY, visualStep.
    rewrite get_property_of_Z. split_and!.
    + done.
    + intros [s Hs]%map_mapped. by rewrite Hs.
    + intros Hm. destruct (map !! m) as [s|] eqn:Hs; [|done].
      destruct Hm. apply map_mapped. by exists s.
Qed.

Lemma songPitches_mapped (z : Z) : z ∈ songPitches → z ∈ mappedPitches.
Proof.
  unfold songPitches, mappedPitches. rewrite !elem_of_cons, !elem_of_nil.
  intros H; repeat destruct H as [-> | H]; tauto.
Qed.

Lemma notes_pitches :
  Forall (λ n, ∃ z, Note.midi n = of_Z z ∧ z ∈ songPitches) App.notes.
Proof.
  unfold App.notes, songPitches.
  repeat (apply Forall_cons; split;
          [ first [ exists 60%Z; split; [by apply num_eq | set_solver]
                  | exists 62%Z; split; [by apply num_eq | set_solver]
                  | exists 64%Z; split; [by apply num_eq | set_solver]
                  | exists 65%Z; split; [by apply num_eq | set_solver]
                  | exists 67%Z; split; [by apply num_eq | set_solver] ] | ]).
  apply Forall_nil_2.
Qed.

Lemma insertByTime_Forall (P : Note.t → Prop) x l :
  P x → Forall P l → Forall P (insertByTime x l).
Proof.
  intros Hx. induction 1 as [|y l Hy Hl IH]; simpl.
  - by repeat constructor.
  - case_decide; repeat constructor; done.
Qed.

Lemma sortByTime_Forall (P : Note.t → Prop) l :
  Forall P l → Forall P (sortByTime l).
Proof.
  induction 1 as [|x l Hx Hl IH]; simpl; [constructor|].
  by apply insertByTime_Forall.
Qed.

Lemma sortByTime_length l : length (sortByTime l) = length l.
Proof.
  assert (∀ x k, length (insertByTime x k) = S (length k)) as Hins.
  { intros x k. induction k as [|y k IH]; simpl; [done|].
    case_decide; simpl; by rewrite ?IH. }
  induction l as [|x l IH]; simpl; [done|]. by rewrite Hins, IH.
Qed.

Lemma drawn_notes_song : notes App.songData = sortByTime App.notes.
Proof. reflexivity. Qed.

(** C9. Every pitch of the hard-coded melody (60, 62, 64, 65, 67) is a key
    of the map of [getNoteY]: for each of the notes drawn for the built-in
    song the lookup succeeds, and its value, not the linear fallback, gives
    the position. *)
Theorem song_pitches_in_map :
  (∀ z, z ∈ songPitches → is_Some (map !! z)) ∧
  length (notes App.songData) = 30%nat ∧
  Forall (λ n, ∃ z s, Note.midi n = of_Z z ∧ z ∈ songPitches ∧
                      get_property map (Note.midi n) = Some s ∧
                      getNoteY (Note.midi n) = STAFF_TOP_Y + s * STAFF_LINE_HEIGHT)
         (notes App.songData).
Proof.
  split; [|split].
  - intros z Hz. by apply map_mapped, songPitches_mapped.
  - by rewrite drawn_notes_song, sortByTime_length.
  - rewrite drawn_notes_song. apply sortByTime_Forall.
    eapply Forall_impl; [apply notes_pitches|].
    intros n (z & Hn & Hz). simpl.
    destruct (proj1 (map_mapped z) (songPitches_mapped z Hz)) as [s Hs].
    exists z, s. unfold getNoteY. rewrite Hn, get_property_of_Z, Hs. done.
Qed.

Example getNoteY_C4 : getNoteY (num 60) = num 110.
Proof. by apply Qc_is_canon. Qed.

Example getNoteY_F5 : getNoteY (num 77) = num 60.
Proof. by apply Qc_is_canon. Qed.

Example getNoteY_Csharp4 : getNoteY (num 61) = num 140.
Proof. by apply Qc_is_canon. Qed.

Example getNoteY_B6 : getNoteY (num 95) = num (-30).
Proof. by apply Qc_is_canon. Qed.

End StaffPositions.

(** ** Highlighting *)

Section Highlighting.

Lemma isActive_sounding t note :
  SheetMusic.isActive t note = true ↔ sounding t note.
Proof.
  unfold SheetMusic.isActive, sounding.
  by rewrite andb_true_iff, !bool_decide_eq_true.
Qed.

Lemma isPlayingNote_sounding t note :
  PianoRoll.isPlayingNote t note = true ↔ sounding t note.
Proof.
  unfold PianoRoll.isPlayingNote, sounding.
  by rewrite andb_true_iff, !bool_decide_eq_true.
Qed.

Lemma not_sounding_at_end note :
  ¬ sounding (Note.time note + Note.duration note) note.
Proof. intros [_ H]. by apply Qclt_not_eq in H. Qed.

(** Both views test the same half-open interval: a note is marked
    active by the sheet music, and by the piano roll whenever it draws the
    note, exactly when [time <= t < time + duration]; at the instant the
    note ends it is not active in either. *)
Theorem views_agree_on_active (t : number) (note : Note.t) :
  SheetMusic.isActive t note = PianoRoll.isPlayingNote t note ∧
  (SheetMusic.isActive t note = true ↔ sounding t note) ∧
  (PianoRoll.isPlayingNote t note = true ↔ sounding t note) ∧
  (SheetMusic.noteHeadFill t note = "#22c55e" ↔ sounding t note) ∧
  (∀ w c, PianoRoll.drawNote w t note = Some c →
          (c = "#22c55e" ↔ sounding t note)) ∧
  SheetMusic.isActive (Note.time note + Note.duration note) note = false ∧
  PianoRoll.isPlayingNote (Note.time note + Note.duration note) note = false.
Proof.
  split_and!.
  - done.
  - apply isActive_sounding.
  - apply isPlayingNote_sounding.
  - rewrite <- isActive_sounding. unfold SheetMusic.noteHeadFill.
    destruct (SheetMusic.isActive t note); split; done.
  - intros w c. unfold PianoRoll.drawNote. case_decide; [done|].
    intros [= <-]. rewrite <- isPlayingNote_sounding.
    destruct (PianoRoll.isPlayingNote t note); split; done.
  - apply not_true_is_false. rewrite isActive_sounding.
    apply not_sounding_at_end.
  - apply not_true_is_false. rewrite isPlayingNote_sounding.
    apply not_sounding_at_end.
Qed.






Example narrow_canvas_skips :
  PianoRoll.drawNote (num 100) (num 0) (Note.mk "C4" (num 60) (num 0) (num 1) (num 0.8))
  = None.
Proof. reflexivity. Qed.

Example active_then_over :
  let note := Note.mk "C4" (num 60) (num 0.5) (num 0.5) (num 0.8) in
  SheetMusic.isActive (num 0.5) note = true ∧
  SheetMusic.isActive (num 0.75) note = true ∧
  SheetMusic.isActive (num 1) note = false ∧
  PianoRoll.drawNote (num 800) (num 1) note = Some "#3b82f6".
Proof. by vm_compute. Qed.

End Highlighting.

(** ** Row labels of the piano roll *)

Section RowLabels.

Import PianoRoll.

Lemma octave_floor (m : Z) : floor (of_Z m / num 12) = (m `div` 12)%Z.
Proof. apply (floor_div m 12). Qed.

(** C7. For [0 <= m <= 127] the index [m mod 12] is within the bounds of
    the twelve names from C to B, and the label is the name at that index
    followed by [floor (m / 12) - 1]; pitch 60 is labelled C4. *)
Theorem rowLabel_name_octave (m : Z) :
  (0 ≤ m ≤ 127)%Z →
  noteNames = ["C"; "C#"; "D"; "D#"; "E"; "F"; "F#"; "G"; "G#"; "A"; "A#"; "B"] ∧
  (0 ≤ m `mod` 12 < Z.of_nat (length noteNames))%Z ∧
  (∃ name, noteNames !! Z.to_nat (m `mod` 12) = Some name ∧
           rowLabel m = name +:+ pretty (m `div` 12 - 1)%Z) ∧
  rowLabel 60 = "C4".
Proof.
  intros Hm. pose proof (Z.mod_pos_bound m 12 ltac:(lia)) as Hidx.
  split; [done|]. split; [simpl; lia|]. split; [|done].
  - destruct (lookup_lt_is_Some_2 noteNames (Z.to_nat (m `mod` 12))) as [name Hname].
    { simpl. lia. }
    exists name. split; [done|].
    unfold rowLabel, get_index. rewrite octave_floor.
    rewrite Z.rem_mod_nonneg by lia.
    rewrite decide_True by lia.
    by rewrite Hname.
Qed.

Lemma rowLabel_name_octave_witness :
  (0 ≤ 67 ≤ 127)%Z ∧ rowLabel 67 = "G4".
Proof.
  split; [lia|].
  destruct (rowLabel_name_octave 67 ltac:(lia)) as (_ & _ & (name & Hn & ->) & _).
  vm_compute in Hn. injection Hn as <-. reflexivity.
Defined.

End RowLabels.

(** ** The built-in song and the playback handlers *)

Section Playback.

Import App.

(** Unfolds one run of a handler. *)
Ltac run :=
  unfold exec, handle, loadUserSong, handleSpeedChange, handleStop,
    syncVisualizer, togglePlay, initializeAudio, setupSynthesizers, first_of;
  unfold mbind, mret, M_bind, M_ret, Eff.bind, Eff.ret, modify, get, throw;
  cbn beta iota.

Lemma quarter_half : quarter = num 0.5.
Proof. by apply Qc_is_canon. Qed.

Lemma song_duration : MidiData.duration songData = num 16.
Proof. by apply Qc_is_canon. Qed.

Lemma notes_melody : notes = noteOfBeats <$> melody.
Proof. unfold notes, createNote. rewrite quarter_half. reflexivity. Qed.

Lemma melody_pitchNames :
  Forall (λ row, (row.1.1.1, row.1.1.2) ∈ pitchNames) melody.
Proof.
  unfold melody, pitchNames.
  repeat (apply Forall_cons; split; [simpl; set_solver|]).
  apply Forall_nil_2.
Qed.

Lemma loadUserSong_run (s : State) :
  loadUserSong s = (inr tt, setMidiData songData s).
Proof. reflexivity. Qed.

(** C3, with the note count the code has. [loadUserSong] stores the same
    [MidiData] whatever the state it is called in: one track named Flauta
    with 30 notes, named and pitched C4, D4, E4, F4 or G4 (60, 62, 64, 65,
    67), each starting at its beat offset times 0.5 s and lasting its beat
    length times 0.5 s; tempo 120 BPM, time signature 4/4, duration
    32 quarter notes, which is 16 seconds. *)
Theorem loadUserSong_builds_song (s s' : State) :
  midiData (exec loadUserSong s) = Some songData ∧
  midiData (exec loadUserSong s) = midiData (exec loadUserSong s') ∧
  (∃ track,
      MidiData.tracks songData = [track] ∧
      Track.name track = "Flauta" ∧
      length (Track.notes track) = 30%nat ∧
      Track.notes track = noteOfBeats <$> melody ∧
      Forall (λ row, (row.1.1.1, row.1.1.2) ∈ pitchNames) melody) ∧
  Header.tempos (MidiData.header songData) = [ {| Tempo.bpm := num 120 |} ] ∧
  Header.timeSignatures (MidiData.header songData)
    = [ {| TimeSignature.timeSignature := [num 4; num 4] |} ] ∧
  quarter = num 0.5 ∧
  MidiData.duration songData = num 32 * quarter ∧
  MidiData.duration songData = num 16.
Proof.
  split_and!; try done.
  - eexists. split_and!; [done..| |].
    + apply notes_melody.
    + apply melody_pitchNames.
  - apply quarter_half.
  - apply song_duration.
Qed.

(** C3 as stated fails: the single track does not hold 31 notes. *)
Lemma loadUserSong_not_31_notes :
  ¬ ∃ track, MidiData.tracks (songData) = [track] ∧
             length (Track.notes track) = 31%nat.
Proof. intros (track & [= <-] & Hlen). simpl in Hlen. discriminate. Qed.

(** *** setupSynthesizers *)

Lemma setupSynthesizers_run (data : MidiData.t) (s : State) track tracks tempo tempos :
  MidiData.tracks data = track :: tracks →
  Header.tempos (MidiData.header data) = tempo :: tempos →
  setupSynthesizers data s =
    (inr tt,
     {| midiData := midiData s; isPlaying := isPlaying s;
        playbackRate := playbackRate s; currentTime := currentTime s;
        isReady := isReady s; audioStarted := audioStarted s;
        synthsRef := [fluteSynth];
        partRef := Some (Tone.mkPart (toPartEvent <$> Track.notes track) (num 0) false);
        transportRef := Tone.mkTransport Tone.stopped (Tempo.bpm tempo) |}).
Proof. intros Ht Hb. run. rewrite Ht, Hb. reflexivity. Qed.

(** C6. Given a track 0 and a first tempo entry, [setupSynthesizers]
    hands the part one event per note of track 0, in the stored order, each
    with the note's time, name, duration and velocity, and sets the
    transport to the BPM of the first tempo entry. *)
Theorem setupSynthesizers_schedules_track0
    (data : MidiData.t) (s : State) track tracks tempo tempos :
  MidiData.tracks data = track :: tracks →
  Header.tempos (MidiData.header data) = tempo :: tempos →
  ∃ s' part,
    setupSynthesizers data s = (inr tt, s') ∧
    partRef s' = Some part ∧
    Tone.disposed part = false ∧
    length (Tone.events part) = length (Track.notes track) ∧
    (∀ i, Tone.events part !! i =
            (λ n, Tone.mkEvent (Note.time n) (Note.name n)
                               (Note.duration n) (Note.velocity n))
              <$> Track.notes track !! i) ∧
    (∀ i e t, Tone.events part !! i = Some e →
              ∃ n, Track.notes track !! i = Some n ∧
                   partCallback t e =
                     Tone.mkTrigger (Note.name n) (Note.duration n) t (Note.velocity n)) ∧
    Tone.bpm (transportRef s') = Tempo.bpm tempo.
Proof.
  intros Ht Hb. eexists _, _. split; [by eapply setupSynthesizers_run|].
  split; [reflexivity|].
  cbn [partRef transportRef Tone.events Tone.disposed Tone.bpm].
  split; [done|]. split; [by rewrite length_fmap|].
  split; [intros i; by rewrite list_lookup_fmap|]. split; [|done].
  intros i e t. rewrite list_lookup_fmap.
  destruct (Track.notes track !! i) as [n|]; [|done].
  intros [= <-]. by exists n.
Qed.

Lemma setupSynthesizers_schedules_track0_witness :
  ∃ s' part,
    setupSynthesizers songData initial = (inr tt, s') ∧
    partRef s' = Some part ∧
    length (Tone.events part) = 30%nat ∧
    Tone.bpm (transportRef s') = num 120.
Proof.
  destruct (setupSynthesizers_schedules_track0 songData initial _ _ _ _
              eq_refl eq_refl) as (s' & part & Hrun & Hpart & _ & Hlen & _ & _ & Hbpm).
  exists s', part. split_and!; done.
Defined.

(** *** handleSpeedChange *)

Lemma handleSpeedChange_run (r : number) (s : State) d tempo tempos :
  midiData s = Some d →
  Header.tempos (MidiData.header d) = tempo :: tempos →
  handleSpeedChange r s =
    (inr tt,
     onTransport (Tone.set_bpm (Tempo.bpm tempo * r)) (setPlaybackRate r s)).
Proof. intros Hd Hb. run. simpl. rewrite Hd, Hb. reflexivity. Qed.

Lemma handleSpeedChange_unloaded (r : number) (s : State) :
  midiData s = None →
  handleSpeedChange r s = (inr tt, setPlaybackRate r s).
Proof. intros Hd. run. simpl. by rewrite Hd. Qed.

(** C5. For a slider value [r] between 0.5 and 1.5 and a loaded song with
    a first tempo entry, [handleSpeedChange] sets [playbackRate] to [r] and
    the transport BPM to that entry's BPM times [r] (120 times [r] for the
    built-in song) and leaves the loaded [MidiData] as it was. *)
Theorem handleSpeedChange_scales_bpm (r : number) (s : State) d tempo tempos :
  num 0.5 ≤ r ≤ num 1.5 →
  midiData s = Some d →
  Header.tempos (MidiData.header d) = tempo :: tempos →
  ∃ s',
    handleSpeedChange r s = (inr tt, s') ∧
    playbackRate s' = r ∧
    Tone.bpm (transportRef s') = Tempo.bpm tempo * r ∧
    (d = songData → Tone.bpm (transportRef s') = num 120 * r) ∧
    midiData s' = Some d.
Proof.
  intros _ Hd Hb. eexists. split; [by eapply handleSpeedChange_run|].
  simpl. split_and!; try done.
  intros ->. by injection Hb as <- _.
Qed.

Lemma handleSpeedChange_scales_bpm_witness :
  ∃ s',
    handleSpeedChange (num 0.5) (exec loadUserSong initial) = (inr tt, s') ∧
    playbackRate s' = num 0.5 ∧
    Tone.bpm (transportRef s') = num 60 ∧
    midiData s' = Some songData.
Proof.
  destruct (handleSpeedChange_scales_bpm (num 0.5) (exec loadUserSong initial)
              songData _ _ ltac:(split; by vm_compute) eq_refl eq_refl)
    as (s' & Hrun & Hrate & _ & Hbpm & Hd).
  exists s'. split_and!; try done.
  rewrite Hbpm by done. by apply Qc_is_canon.
Defined.

(** *** Every state the component reaches holds the built-in song *)

Lemma keeps_ret {A} (a : A) : keeps_song (mret a).
Proof. done. Qed.

Lemma keeps_throw {A} (e : Exception) : keeps_song (@throw State A e).
Proof. done. Qed.

Lemma keeps_get : keeps_song (@get State).
Proof. done. Qed.

Lemma keeps_modify (f : State → State) :
  (∀ s, midiData (f s) = midiData s) → keeps_song (modify f).
Proof. intros Hf s. apply Hf. Qed.

Lemma keeps_bind {A B} (c : M State A) (k : A → M State B) :
  keeps_song c → (∀ a, keeps_song (k a)) → keeps_song (c ≫= k).
Proof.
  intros Hc Hk s. unfold mbind, M_bind, Eff.bind. specialize (Hc s).
  destruct (c s) as [[e|a] s1]; simpl in *; [done|].
  by rewrite Hk.
Qed.

Lemma keeps_first_of {A} what (l : list A) : keeps_song (first_of what l).
Proof. destruct l; done. Qed.

Create HintDb keeps.
Hint Resolve keeps_ret keeps_throw keeps_get keeps_first_of : keeps.

Ltac keeps :=
  repeat first
    [ apply keeps_bind; [|intros ?]
    | apply keeps_modify; by intros []
    | solve [eauto with keeps] ].

Lemma setupSynthesizers_keeps (data : MidiData.t) :
  keeps_song (setupSynthesizers data).
Proof. unfold setupSynthesizers. keeps. Qed.

Lemma initializeAudio_keeps : keeps_song initializeAudio.
Proof.
  unfold initializeAudio. apply keeps_bind; [apply keeps_get|]. intros s.
  destruct (isReady s), (midiData s); keeps; apply setupSynthesizers_keeps.
Qed.

Lemma togglePlay_keeps : keeps_song togglePlay.
Proof.
  unfold togglePlay. apply keeps_bind; [apply keeps_get|]. intros s0.
  apply keeps_bind; [apply initializeAudio_keeps|]. intros _.
  apply keeps_bind; [apply keeps_get|]. intros s.
  apply keeps_bind.
  { destruct (partRef s), (midiData s0); keeps; apply setupSynthesizers_keeps. }
  intros _. destruct (isPlaying s0); keeps.
Qed.

Lemma handleStop_keeps : keeps_song handleStop.
Proof. unfold handleStop. keeps. Qed.

Lemma handleSpeedChange_keeps (r : number) : keeps_song (handleSpeedChange r).
Proof.
  unfold handleSpeedChange. apply keeps_bind; [keeps|]. intros _.
  apply keeps_bind; [apply keeps_get|]. intros s.
  destruct (midiData s); keeps.
Qed.

Lemma syncVisualizer_keeps (t : number) : keeps_song (syncVisualizer t).
Proof.
  unfold syncVisualizer. apply keeps_bind; [apply keeps_get|]. intros s.
  destruct (isPlaying s); keeps.
Qed.

Lemma handle_midiData (e : Event) (s : State) :
  midiData (exec (handle e) s) = midiData s.
Proof.
  destruct e; simpl;
    [ apply togglePlay_keeps | apply handleStop_keeps
    | apply handleSpeedChange_keeps | apply syncVisualizer_keeps ].
Qed.

Lemma reachable_song (s : State) : reachable s → midiData s = Some songData.
Proof.
  induction 1 as [|s e _ IH]; [done|]. by rewrite handle_midiData.
Qed.

Lemma reachable_speed_change (r : number) (s : State) :
  reachable s →
  handleSpeedChange r s =
    (inr tt, onTransport (Tone.set_bpm (num 120 * r)) (setPlaybackRate r s)).
Proof.
  intros Hs%reachable_song.
  by rewrite (handleSpeedChange_run r s songData _ _ Hs eq_refl).
Qed.

End Playback.

(** ** The exchange with the hosted model *)

Section UniqueNotes.

Lemma Set_from_acc (l acc : list string) :
  NoDup acc →
  NoDup (fold_left (λ acc x, if decide (x ∈ acc) then acc else acc ++ [x]) l acc) ∧
  ∀ x, x ∈ fold_left (λ acc x, if decide (x ∈ acc) then acc else acc ++ [x]) l acc
       ↔ x ∈ acc ∨ x ∈ l.
Proof.
  revert acc. induction l as [|y l IH]; intros acc Hacc; simpl.
  - split; [done|]. intros x. rewrite elem_of_nil. tauto.
  - case_decide as Hy.
    + destruct (IH acc Hacc) as [Hnd Hel]. split; [done|].
      intros x. rewrite Hel, elem_of_cons. split; [tauto|].
      intros [?|[->|?]]; tauto.
    + destruct (IH (acc ++ [y])) as [Hnd Hel].
      { apply NoDup_app. split_and!; [done| |apply NoDup_singleton].
        intros x Hx ->%list_elem_of_singleton. done. }
      split; [done|]. intros x.
      rewrite Hel, elem_of_app, list_elem_of_singleton, elem_of_cons. tauto.
Qed.

Lemma Set_from_NoDup (l : list string) : NoDup (Set_from l).
Proof. apply Set_from_acc, NoDup_nil_2. Qed.

Lemma elem_of_Set_from (l : list string) x : x ∈ Set_from l ↔ x ∈ l.
Proof.
  unfold Set_from. destruct (Set_from_acc l [] (NoDup_nil_2)) as [_ ->].
  rewrite elem_of_nil. tauto.
Qed.

Lemma sort_key_inj (s1 s2 : string) : sort_key s1 = sort_key s2 → s1 = s2.
Proof.
  intros [= _ H].
  rewrite <- (String.string_of_list_ascii_of_string s1).
  rewrite <- (String.string_of_list_ascii_of_string s2). f_equal.
  revert H. generalize (String.list_ascii_of_string s1) as l1.
  generalize (String.list_ascii_of_string s2) as l2.
  intros l2 l1. revert l2. induction l1 as [|a l1 IH]; intros [|b l2] H; try done.
  injection H as Hab Hl. f_equal; [|by apply IH].
  by rewrite <- (Ascii.ascii_N_embedding a), Hab, Ascii.ascii_N_embedding.
Qed.

#[local] Instance code_unit_le_trans : Transitive code_unit_le.
Proof.
  unfold code_unit_le. intros s1 s2 s3 H12 H23 H31.
  destruct (trichotomy lexico (sort_key s1) (sort_key s2)) as [H|[H|H]].
  - apply H23. by trans (sort_key s1).
  - apply H23. by rewrite <- H.
  - by apply H12.
Qed.

#[local] Instance code_unit_le_anti_symm : AntiSymm (=) code_unit_le.
Proof.
  unfold code_unit_le. intros s1 s2 H12 H21.
  destruct (trichotomy lexico (sort_key s1) (sort_key s2)) as [H|[H|H]];
    [done|by apply sort_key_inj|done].
Qed.

#[local] Instance code_unit_le_total : Total code_unit_le.
Proof.
  intros s1 s2. unfold code_unit_le.
  destruct (trichotomy lexico (sort_key s1) (sort_key s2)) as [H|[H|H]].
  - left. intros H'. by apply (strict_anti_symm _ _ H).
  - left. rewrite H. apply (irreflexivity lexico).
  - right. intros H'. by apply (strict_anti_symm _ _ H).
Qed.

Lemma sort_Sorted (l : list string) : Sorted code_unit_le (JS.sort l).
Proof. apply Sorted_merge_sort; apply _. Qed.

Lemma sort_Permutation (l : list string) : JS.sort l ≡ₚ l.
Proof. apply merge_sort_Permutation. Qed.

(** Sorting the distinct elements gives the same list for any two lists
    with the same elements. *)
Lemma sort_distinct_unique (l1 l2 : list string) :
  NoDup l1 → NoDup l2 → (∀ x, x ∈ l1 ↔ x ∈ l2) → JS.sort l1 = JS.sort l2.
Proof.
  intros H1 H2 Hel. apply (Sorted_unique code_unit_le); [apply sort_Sorted..|].
  rewrite !sort_Permutation. by apply NoDup_Permutation.
Qed.

Lemma uniqueNotes_of_set (track : Track.t) :
  GeminiService.uniqueNotes track = JS.sort (elements (noteNameSet track)).
Proof.
  unfold GeminiService.uniqueNotes, noteNameSet.
  apply sort_distinct_unique; [apply Set_from_NoDup|apply NoDup_elements|].
  intros x. by rewrite elem_of_Set_from, elem_of_elements, elem_of_list_to_set.
Qed.

(** [uniqueNotes] is the sorted list of the distinct names of the track. *)
Lemma uniqueNotes_sorted_distinct (track : Track.t) :
  Sorted code_unit_le (GeminiService.uniqueNotes track) ∧
  NoDup (GeminiService.uniqueNotes track) ∧
  ∀ x, x ∈ GeminiService.uniqueNotes track ↔ x ∈ Note.name <$> Track.notes track.
Proof.
  unfold GeminiService.uniqueNotes. split_and!.
  - apply sort_Sorted.
  - rewrite sort_Permutation. apply Set_from_NoDup.
  - intros x. by rewrite sort_Permutation, elem_of_Set_from.
Qed.

Lemma uniqueNotes_agree (t1 t2 : Track.t) :
  GeminiService.uniqueNotes t1 = GeminiService.uniqueNotes t2
  ↔ noteNameSet t1 = noteNameSet t2.
Proof.
  split.
  - intros Heq. apply set_eq. intros x. unfold noteNameSet.
    rewrite !elem_of_list_to_set.
    destruct (uniqueNotes_sorted_distinct t1) as (_ & _ & <-).
    destruct (uniqueNotes_sorted_distinct t2) as (_ & _ & <-).
    by rewrite Heq.
  - intros Heq. by rewrite !uniqueNotes_of_set, Heq.
Qed.

Lemma tempo_firstBpm (d : MidiData.t) :
  GeminiService.tempo d = if decide (firstBpm d = 0) then num 120 else firstBpm d.
Proof.
  unfold GeminiService.tempo, firstBpm, or_default.
  by destruct (Header.tempos (MidiData.header d)) as [|t ts].
Qed.

End UniqueNotes.

Section Exchange.

Import GeminiService.

Context {Json : Type}.
Variable JSON_parse : string → option Json.
Variable other : number → string.
Variable env : Env.

Abbreviation analyze := (analyzeMidiForStudents Json JSON_parse other env).
Abbreviation tryBlock := (GeminiService.tryBlock Json JSON_parse other env).
Abbreviation untilPrompt := (GeminiService.untilPrompt other env).
Abbreviation promptText track d :=
  (prompt (uniqueNotes track) (Number_toString other (tempo d)) (duration other d)).

Ltac run :=
  unfold GeminiService.tryBlock, GeminiService.untilPrompt, buildPrompt,
    initGenAI, models_generateContent;
  unfold mbind, mret, M_bind, M_ret, Eff.bind, Eff.ret, modify, throw;
  cbn beta iota.

Lemma falsy_key_cases :
  (falsy (API_KEY env) = true ∧ (API_KEY env = None ∨ API_KEY env = Some ""))
  ∨ (falsy (API_KEY env) = false ∧ ∃ k, API_KEY env = Some k ∧ k ≠ "").
Proof.
  destruct (API_KEY env) as [k|]; simpl; [|by left; auto].
  case_bool_decide; [left|right]; split; eauto. subst. auto.
Qed.

Lemma untilPrompt_no_key d w :
  falsy (API_KEY env) = true →
  untilPrompt d w = (inl (Error "API Key is missing"), w).
Proof.
  intros Hk. destruct falsy_key_cases as [[_ [H|H]]|[H _]]; [..|congruence];
    run; rewrite H; simpl; done.
Qed.

Lemma untilPrompt_no_tracks d w :
  falsy (API_KEY env) = false →
  MidiData.tracks d = [] →
  untilPrompt d w = (inl (Error "No tracks found"), w).
Proof.
  intros Hk Ht. destruct falsy_key_cases as [[H _]|[_ (k & H & Hne)]]; [congruence|].
  run. rewrite H, Ht. simpl. by rewrite decide_False.
Qed.

Lemma untilPrompt_built d w track rest :
  falsy (API_KEY env) = false →
  MidiData.tracks d = track :: rest →
  ∃ ai, untilPrompt d w = (inr (ai, promptText track d), w).
Proof.
  intros Hk Ht. destruct falsy_key_cases as [[H _]|[_ (k & H & Hne)]]; [congruence|].
  exists (mkClient k). run. rewrite H, Ht. simpl. by rewrite decide_False.
Qed.

Lemma tryBlock_called d w track rest :
  falsy (API_KEY env) = false →
  MidiData.tracks d = track :: rest →
  tryBlock d w =
    (afterCall JSON_parse (generateContent env (request (promptText track d))),
     send (request (promptText track d)) w).
Proof.
  intros Hk Ht. destruct falsy_key_cases as [[H _]|[_ (k & H & Hne)]]; [congruence|].
  run. rewrite H, Ht. simpl. rewrite decide_False by done. simpl.
  destruct (generateContent env _) as [e|[[t|]]]; simpl; [done| |done].
  case_decide; [done|]. by destruct (JSON_parse t).
Qed.

Lemma tryBlock_not_called d w :
  falsy (API_KEY env) = true ∨ MidiData.tracks d = [] →
  ∃ e, tryBlock d w = (inl e, w).
Proof.
  intros Hcase.
  destruct (falsy (API_KEY env)) eqn:Hk.
  - exists (Error "API Key is missing").
    pose proof (untilPrompt_no_key d w Hk) as H. revert H. run.
    by intros ->.
  - destruct Hcase as [|Ht]; [done|]. exists (Error "No tracks found").
    pose proof (untilPrompt_no_tracks d w Hk Ht) as H. revert H. run.
    by intros ->.
Qed.

Lemma analyze_caught d w e w' :
  tryBlock d w = (inl e, w') →
  analyze d w = (Resolved (Literal fallback), console_error e w').
Proof.
  intros H. unfold analyzeMidiForStudents, async, try_catch. by rewrite H.
Qed.

Lemma analyze_returned d w v w' :
  tryBlock d w = (inr v, w') → analyze d w = (Resolved v, w').
Proof.
  intros H. unfold analyzeMidiForStudents, async, try_catch. by rewrite H.
Qed.

Lemma analyze_resolves d w : ∃ v, (analyze d w).1 = Resolved v.
Proof.
  destruct (tryBlock d w) as [[e|v] w'] eqn:H.
  - rewrite (analyze_caught _ _ _ _ H). eauto.
  - rewrite (analyze_returned _ _ _ _ H). eauto.
Qed.

Lemma failure_throws d w :
  failure Json JSON_parse other env d → ∃ e w', tryBlock d w = (inl e, w').
Proof.
  intros Hf.
  assert (falsy (API_KEY env) = true ∨ MidiData.tracks d = [] ∨
          ∃ track rest, falsy (API_KEY env) = false ∧
                        MidiData.tracks d = track :: rest) as Hcases.
  { destruct (falsy (API_KEY env)); [by left|right].
    destruct (MidiData.tracks d) as [|track rest]; [by left|right; eauto]. }
  destruct Hcases as [Hk|[Ht|(track & rest & Hk & Ht)]].
  { destruct (tryBlock_not_called d w (or_introl Hk)) as [e He]; eauto. }
  { destruct (tryBlock_not_called d w (or_intror Ht)) as [e He]; eauto. }
  rewrite (tryBlock_called d w track rest Hk Ht).
  assert (∀ r, requestFor other d = Some r → r = request (promptText track d)) as Hreq.
  { unfold requestFor. rewrite Ht. simpl. by intros r [= <-]. }
  destruct Hf as [Hk'|Ht'|r e Hr He|r response Hr Hresp Htext|r t Hr Hresp Hparse];
    try congruence.
  - apply Hreq in Hr as ->. rewrite He. simpl. eauto.
  - apply Hreq in Hr as ->. rewrite Hresp. simpl.
    destruct (text response) as [t|]; simpl in *; [|eauto].
    apply bool_decide_eq_true in Htext as ->. rewrite decide_True by done. eauto.
  - apply Hreq in Hr as ->. rewrite Hresp. simpl.
    case_decide; [eauto|]. rewrite Hparse. eauto.
Qed.

(** C2. The promise of [analyzeMidiForStudents] never rejects, and under
    each failure of the exchange (no API key, no track, a rejected call, an
    empty answer, an answer that does not parse) it resolves with the
    literal of the [catch] branch: difficulty Desconocida, the three fixed
    tips and the fixed description. *)
Theorem analyze_never_rejects_and_falls_back (d : MidiData.t) (w : World) :
  (∃ v, (analyze d w).1 = Resolved v) ∧
  (failure Json JSON_parse other env d →
     (analyze d w).1 = Resolved (Literal fallback)) ∧
  AnalysisResult.difficulty fallback = "Desconocida" ∧
  AnalysisResult.tips fallback =
    [ "Practica despacio al principio.";
      "Asegúrate de tapar bien los agujeros.";
      "Disfruta la música." ] ∧
  AnalysisResult.description fallback =
    "No pudimos conectar con el profesor virtual, ¡pero tú puedes hacerlo!".
Proof.
  split; [apply analyze_resolves|]. split; [|done].
  intros (e & w' & H)%(failure_throws d w).
  by rewrite (analyze_caught _ _ _ _ H).
Qed.

Lemma promptsSent_called d w track rest :
  falsy (API_KEY env) = false →
  MidiData.tracks d = track :: rest →
  promptsSent Json JSON_parse other env d w = [promptText track d].
Proof.
  intros Hk Ht. unfold promptsSent.
  pose proof (tryBlock_called d w track rest Hk Ht) as Hrun.
  destruct (afterCall JSON_parse _) as [e|v] in Hrun.
  - rewrite (analyze_caught _ _ _ _ Hrun). simpl.
    by rewrite drop_app_length.
  - rewrite (analyze_returned _ _ _ _ Hrun). simpl.
    by rewrite drop_app_length.
Qed.

Lemma promptsSent_not_called d w :
  falsy (API_KEY env) = true ∨ MidiData.tracks d = [] →
  promptsSent Json JSON_parse other env d w = [].
Proof.
  intros [e Hrun]%(tryBlock_not_called d w). unfold promptsSent.
  rewrite (analyze_caught _ _ _ _ Hrun). simpl. by rewrite drop_all.
Qed.

Lemma promptText_promptOf d track :
  promptText track d = promptOf other (noteNameSet track) (firstBpm d) (duration other d).
Proof. unfold promptOf. by rewrite uniqueNotes_of_set, tempo_firstBpm. Qed.

Lemma tempo_default d :
  Header.tempos (MidiData.header d) = [] ∨
  (∃ t ts, Header.tempos (MidiData.header d) = t :: ts ∧ Tempo.bpm t = num 0) →
  Number_toString other (tempo d) = "120".
Proof.
  intros Hd. assert (tempo d = num 120) as ->; [|done].
  unfold tempo. destruct Hd as [->|(t & ts & -> & Hb)]; [done|].
  simpl. by rewrite Hb.
Qed.

(** C10, with the key check that comes first. Once the API client exists,
    a header without tempo entries, or whose first entry has BPM 0, puts 120
    into the prompt instead of failing, and the statements before the model
    call end in the error path exactly when track 0 is missing; the prompt
    is then never sent and the promise resolves with the fallback. *)
Theorem tempo_defaults_and_only_missing_track_diverts (d : MidiData.t) (w : World) :
  falsy (API_KEY env) = false →
  (∀ track rest,
      MidiData.tracks d = track :: rest →
      Header.tempos (MidiData.header d) = [] ∨
      (∃ t ts, Header.tempos (MidiData.header d) = t :: ts ∧ Tempo.bpm t = num 0) →
      (∃ ai, untilPrompt d w =
               (inr (ai, prompt (uniqueNotes track) "120" (duration other d)), w)) ∧
      promptsSent Json JSON_parse other env d w =
        [prompt (uniqueNotes track) "120" (duration other d)]) ∧
  ((∃ e, (untilPrompt d w).1 = inl e) ↔ MidiData.tracks d = []) ∧
  (MidiData.tracks d = [] →
     analyze d w = (Resolved (Literal fallback),
                    console_error (Error "No tracks found") w)).
Proof.
  intros Hk. split; [|split].
  - intros track rest Ht Hd. split.
    + destruct (untilPrompt_built d w track rest Hk Ht) as [ai Hrun].
      exists ai. by rewrite Hrun, tempo_default.
    + by rewrite (promptsSent_called d w track rest Hk Ht), tempo_default.
  - split.
    + intros [e He]. destruct (MidiData.tracks d) as [|track rest] eqn:Ht; [done|].
      destruct (untilPrompt_built d w track rest Hk Ht) as [ai Hrun].
      by rewrite Hrun in He.
    + intros Ht. rewrite (untilPrompt_no_tracks d w Hk Ht). eauto.
  - intros Ht. apply analyze_caught.
    pose proof (untilPrompt_no_tracks d w Hk Ht) as H. revert H.
    unfold GeminiService.tryBlock, mbind, M_bind, Eff.bind. by intros ->.
Qed.

End Exchange.

(** C4. On the success path (a key is configured and track 0 exists) the
    prompt sent is a function of the set of note names of track 0, the BPM of
    the first tempo entry (120 when there is none) and the duration printed
    with two decimals: two calls that agree on the three send the same
    single prompt, whatever else differs in the data or in the
    surroundings. *)
Theorem prompt_determined_by_three_values {Json : Type}
    (JSON_parse : string → option Json) (other : number → string)
    (env1 env2 : GeminiService.Env) (d1 d2 : MidiData.t)
    (track1 track2 : Track.t) (rest1 rest2 : list Track.t)
    (w1 w2 : GeminiService.World) :
  falsy (GeminiService.API_KEY env1) = false →
  falsy (GeminiService.API_KEY env2) = false →
  MidiData.tracks d1 = track1 :: rest1 →
  MidiData.tracks d2 = track2 :: rest2 →
  noteNameSet track1 = noteNameSet track2 →
  firstBpm d1 = firstBpm d2 →
  GeminiService.duration other d1 = GeminiService.duration other d2 →
  ∃ p, GeminiService.promptsSent Json JSON_parse other env1 d1 w1 = [p] ∧
       GeminiService.promptsSent Json JSON_parse other env2 d2 w2 = [p] ∧
       p = promptOf other (noteNameSet track1) (firstBpm d1)
                    (GeminiService.duration other d1).
Proof.
  intros Hk1 Hk2 Ht1 Ht2 Hnames Hbpm Hdur. eexists. split_and!; [| |done].
  - rewrite (promptsSent_called _ _ _ _ _ _ _ Hk1 Ht1).
    by rewrite promptText_promptOf.
  - rewrite (promptsSent_called _ _ _ _ _ _ _ Hk2 Ht2).
    by rewrite promptText_promptOf, Hnames, Hbpm, Hdur.
Qed.

(** ** Runs on concrete data *)

Lemma analyze_never_rejects_and_falls_back_witness :
  GeminiService.failure unit parseOk printOther noKey App.songData ∧
  (GeminiService.analyzeMidiForStudents unit parseOk printOther noKey
     App.songData freshWorld).1
  = Resolved (GeminiService.Literal GeminiService.fallback).
Proof.
  assert (GeminiService.failure unit parseOk printOther noKey App.songData) as Hf.
  { apply GeminiService.missing_key. reflexivity. }
  split; [exact Hf|].
  apply (analyze_never_rejects_and_falls_back parseOk printOther noKey
           App.songData freshWorld), Hf.
Defined.

(** The other four failures, each on a run of its own. *)
Example fallback_no_tracks :
  (GeminiService.analyzeMidiForStudents unit parseOk printOther keyed
     (MidiData.mk (MidiData.header App.songData) (num 16) []) freshWorld).1
  = Resolved (GeminiService.Literal GeminiService.fallback).
Proof. reflexivity. Qed.

Example fallback_rejected_call :
  (GeminiService.analyzeMidiForStudents unit parseOk printOther
     (GeminiService.mkEnv (Some "k") (λ _, inl (Rejection "network")))
     App.songData freshWorld).1
  = Resolved (GeminiService.Literal GeminiService.fallback).
Proof. reflexivity. Qed.

Example fallback_empty_text :
  (GeminiService.analyzeMidiForStudents unit parseOk printOther
     (GeminiService.mkEnv (Some "k") (λ _, inr (GeminiService.mkResponse (Some ""))))
     App.songData freshWorld).1
  = Resolved (GeminiService.Literal GeminiService.fallback).
Proof. reflexivity. Qed.

Example fallback_unparsable :
  (GeminiService.analyzeMidiForStudents unit parseOk printOther
     (GeminiService.mkEnv (Some "k") (λ _, inr (GeminiService.mkResponse (Some "{"))))
     App.songData freshWorld).1
  = Resolved (GeminiService.Literal GeminiService.fallback).
Proof. reflexivity. Qed.

Example success_returns_parsed :
  GeminiService.analyzeMidiForStudents unit parseOk printOther keyed
    App.songData freshWorld
  = (Resolved (GeminiService.Parsed tt),
     GeminiService.mkWorld
       [ GeminiService.request
           (GeminiService.prompt ["C4"; "D4"; "E4"; "F4"; "G4"] "120" "16.00") ]
       []).
Proof. reflexivity. Qed.

Lemma prompt_determined_by_three_values_witness :
  ∃ p, GeminiService.promptsSent unit parseOk printOther keyed
         App.songData freshWorld = [p] ∧
       GeminiService.promptsSent unit parseOk printOther
         (GeminiService.mkEnv (Some "other key") (λ _, inl (Rejection "offline")))
         otherSong (GeminiService.mkWorld [] [Error "earlier"]) = [p] ∧
       p = GeminiService.prompt ["C4"; "D4"; "E4"; "F4"; "G4"] "120" "16.00".
Proof.
  destruct (prompt_determined_by_three_values parseOk printOther keyed
              (GeminiService.mkEnv (Some "other key") (λ _, inl (Rejection "offline")))
              App.songData otherSong _ _ _ _
              freshWorld (GeminiService.mkWorld [] [Error "earlier"])
              eq_refl eq_refl eq_refl eq_refl)
    as (p & H1 & H2 & Hp).
  - apply set_eq. intros x. unfold noteNameSet.
    rewrite !elem_of_list_to_set. simpl. rewrite !elem_of_cons, !elem_of_nil. tauto.
  - reflexivity.
  - reflexivity.
  - exists p. split_and!; [done..|].
    vm_compute in H1. by injection H1 as <-.
Defined.

Lemma tempo_defaults_and_only_missing_track_diverts_witness :
  falsy (GeminiService.API_KEY keyed) = false ∧
  (∃ ai, GeminiService.untilPrompt printOther keyed noTempoSong freshWorld =
           (inr (ai, GeminiService.prompt ["C4"] "120" "2.00"), freshWorld)) ∧
  ((∃ e, (GeminiService.untilPrompt printOther keyed noTempoSong freshWorld).1 = inl e)
   ↔ MidiData.tracks noTempoSong = []).
Proof.
  destruct (tempo_defaults_and_only_missing_track_diverts parseOk printOther keyed
              noTempoSong freshWorld eq_refl) as (Hprompt & Hdivert & _).
  split; [reflexivity|]. split; [|exact Hdivert].
  destruct (Hprompt _ _ eq_refl (or_introl eq_refl)) as [[ai Hai] _].
  exists ai. exact Hai.
Defined.

(** C10 as stated fails: without an API key the error path is taken before
    the prompt is built although track 0 is there. *)
Lemma missing_key_diverts_before_prompt :
  ¬ ((∃ e, (GeminiService.untilPrompt printOther noKey App.songData freshWorld).1 = inl e)
     → MidiData.tracks App.songData = []).
Proof. intros H. discriminate H. by exists (Error "API Key is missing"). Qed.

Example missing_key_run :
  GeminiService.analyzeMidiForStudents unit parseOk printOther noKey
    App.songData freshWorld
  = (Resolved (GeminiService.Literal GeminiService.fallback),
     GeminiService.mkWorld [] [Error "API Key is missing"]).
Proof. reflexivity. Qed.

Example rowLabel_samples :
  PianoRoll.rowLabel 0 = "C-1" ∧ PianoRoll.rowLabel 61 = "C#4" ∧
  PianoRoll.rowLabel 69 = "A4" ∧ PianoRoll.rowLabel 127 = "G9".
Proof. by vm_compute. Qed.

Example toFixed_samples :
  toFixed printOther (num 16) 2 = "16.00" ∧
  toFixed printOther (num 16.004) 2 = "16.00" ∧
  toFixed printOther (num 123.456) 2 = "123.46" ∧
  toFixed printOther (num 0.005) 2 = "0.01" ∧
  toFixed printOther (num (-0.001)) 2 = "-0.00" ∧
  toFixed printOther (num 7.5) 1 = "7.5".
Proof. by vm_compute. Qed.

Example uniqueNotes_song :
  GeminiService.uniqueNotes (Track.mk "Flauta" App.notes (Instrument.mk "woodwind" "recorder"))
  = ["C4"; "D4"; "E4"; "F4"; "G4"].
Proof. reflexivity. Qed.

Example speed_change_after_mount :
  App.exec (App.handle (App.SpeedChange (num 1.5))) (App.exec App.loadUserSong App.initial)
  = App.mkState (Some App.songData) false (num 1.5) (num 0) false false [] None
      (Tone.mkTransport Tone.stopped (num 120 * num 1.5)).
Proof. reflexivity. Qed.

Example speed_change_before_mount :
  App.handleSpeedChange (num 1.5) App.initial
  = (inr tt, App.setPlaybackRate (num 1.5) App.initial).
Proof. reflexivity. Qed.

(** * Further properties of the code *)

(** ** Arithmetic on numbers *)

(** Turns a goal and its hypotheses about [Qc] orders into ones about [Q]. *)
Ltac qc_to_q :=
  unfold Qcle, Qclt, Qcminus, Qcplus, Qcmult, Qcopp, Qcdiv, Qcinv, num, of_Z, Q2Qc in *;
  cbn [this] in *;
  rewrite ?Qred_correct in *.

Lemma Math_max_l (a b : number) : a ≤ Math_max a b.
Proof. unfold Math_max. case_decide; [done|]. apply Qcle_refl. Qed.

Lemma Math_max_r (a b : number) : b ≤ Math_max a b.
Proof.
  unfold Math_max. case_decide; [apply Qcle_refl|].
  by apply Qclt_le_weak, Qcnot_le_lt.
Qed.

Lemma Math_max_cases (a b : number) :
  (a ≤ b ∧ Math_max a b = b) ∨ (b < a ∧ Math_max a b = a).
Proof.
  unfold Math_max. case_decide; [by left|right].
  split; [by apply Qcnot_le_lt|done].
Qed.

Lemma Math_min_cases (a b : number) :
  (a ≤ b ∧ Math_min a b = a) ∨ (b < a ∧ Math_min a b = b).
Proof.
  unfold Math_min. case_decide; [by left|right].
  split; [by apply Qcnot_le_lt|done].
Qed.

Lemma of_Z_le (a b : Z) : of_Z a ≤ of_Z b ↔ (a ≤ b)%Z.
Proof. unfold Qcle. by rewrite !this_of_Z, <- Zle_Qle. Qed.

Lemma of_Z_lt (a b : Z) : of_Z a < of_Z b ↔ (a < b)%Z.
Proof. unfold Qclt. by rewrite !this_of_Z, <- Zlt_Qlt. Qed.

Lemma of_Z_inj (a b : Z) : of_Z a = of_Z b → a = b.
Proof.
  intros H. apply (f_equal this) in H. rewrite !this_of_Z in H.
  apply inject_Z_injective. by rewrite H.
Qed.

Lemma of_Z_plus (a b : Z) : of_Z a + of_Z b = of_Z (a + b).
Proof.
  apply Qc_is_canon. unfold Qcplus. cbn [this Q2Qc].
  rewrite Qred_correct, !this_of_Z. by rewrite inject_Z_plus.
Qed.

Lemma of_Z_minus (a b : Z) : of_Z a - of_Z b = of_Z (a - b).
Proof.
  apply Qc_is_canon. unfold Qcminus, Qcplus, Qcopp. cbn [this Q2Qc].
  rewrite !Qred_correct, !this_of_Z.
  unfold Z.sub. by rewrite inject_Z_plus, inject_Z_opp.
Qed.

Lemma of_Z_mult (a b : Z) : of_Z a * of_Z b = of_Z (a * b).
Proof.
  apply Qc_is_canon. unfold Qcmult. cbn [this Q2Qc].
  rewrite Qred_correct, !this_of_Z. by rewrite inject_Z_mult.
Qed.

Lemma Math_ceil_of_Z (z : Z) : Math_ceil (of_Z z) = z.
Proof. unfold Math_ceil. rewrite this_of_Z. apply Qceiling_Z. Qed.

(** ** The sheet-music view *)

Section SheetMusicView.

Import SheetMusic.

Lemma insertByTime_Permutation (x : Note.t) (l : list Note.t) :
  insertByTime x l ≡ₚ x :: l.
Proof.
  induction l as [|y l IH]; simpl; [done|].
  case_decide; [done|]. rewrite IH. apply Permutation_swap.
Qed.

Lemma sortByTime_Permutation (l : list Note.t) : sortByTime l ≡ₚ l.
Proof.
  induction l as [|x l IH]; simpl; [done|].
  by rewrite insertByTime_Permutation, IH.
Qed.

Lemma insertByTime_sorted (x : Note.t) (l : list Note.t) :
  StronglySorted (λ a b, Note.time a ≤ Note.time b) l →
  StronglySorted (λ a b, Note.time a ≤ Note.time b) (insertByTime x l).
Proof.
  induction 1 as [|y l Hl IH Hy]; simpl.
  - repeat constructor.
  - case_decide as Hxy.
    + constructor; [by constructor|].
      constructor; [done|].
      eapply Forall_impl; [exact Hy|]. intros z Hz. simpl in *.
      by eapply Qcle_trans.
    + constructor; [done|].
      rewrite insertByTime_Permutation. constructor; [|done].
      by apply Qclt_le_weak, Qcnot_le_lt.
Qed.

Lemma sortByTime_sorted (l : list Note.t) :
  StronglySorted (λ a b, Note.time a ≤ Note.time b) (sortByTime l).
Proof.
  induction l as [|x l IH]; simpl; [constructor|].
  by apply insertByTime_sorted.
Qed.

Lemma insertByTime_filter (t : number) (x : Note.t) (l : list Note.t) :
  filter (λ n, Note.time n = t) (insertByTime x l)
  = filter (λ n, Note.time n = t) (x :: l).
Proof.
  induction l as [|y l IH]; simpl; [done|].
  case_decide as Hxy; [done|].
  rewrite filter_cons, IH, !filter_cons.
  destruct (decide (Note.time y = t)) as [Hy|Hy];
    destruct (decide (Note.time x = t)) as [Hx|Hx]; try done.
  destruct Hxy. rewrite Hx, Hy. apply Qcle_refl.
Qed.

(** X1. The notes drawn are the notes of all tracks, each exactly once, in
    order of start time; notes that start together keep the order they have
    in the data. *)
Theorem drawn_notes_sorted_stable (midiData : MidiData.t) :
  notes midiData ≡ₚ MidiData.tracks midiData ≫= Track.notes ∧
  StronglySorted (λ a b, Note.time a ≤ Note.time b) (notes midiData) ∧
  ∀ t, filter (λ n, Note.time n = t) (notes midiData)
       = filter (λ n, Note.time n = t) (MidiData.tracks midiData ≫= Track.notes).
Proof.
  unfold notes. split_and!.
  - apply sortByTime_Permutation.
  - apply sortByTime_sorted.
  - intros t. induction (MidiData.tracks midiData ≫= Track.notes) as [|x l IH];
      simpl; [done|].
    rewrite insertByTime_filter, !filter_cons, IH. done.
Qed.



Lemma half_duration_ceiling (d : number) :
  (this d <= 2 * inject_Z (Math_ceil (d / num 2)%Qc))%Q ∧
  (2 * (inject_Z (Math_ceil (d / num 2)%Qc) - 1) < this d)%Q.
Proof.
  unfold Math_ceil.
  pose proof (Qle_ceiling (this (d / num 2))) as H1.
  pose proof (Qceiling_lt (this (d / num 2))) as H2.
  unfold Z.sub in H2. rewrite inject_Z_plus in H2.
  replace (inject_Z (- (1))) with (-1)%Q in H2 by reflexivity.
  set (k := inject_Z (Qceiling (this (d / num 2)))) in *. clearbody k.
  assert (this (d / num 2) == this d * (1 # 2))%Q as Hq.
  { unfold Qcdiv, Qcmult, Qcinv, num, Q2Qc. cbn [this].
    rewrite !Qred_correct. reflexivity. }
  rewrite Hq in H1, H2. clear Hq.
  set (q := this d) in *. clearbody q. split; lra.
Qed.

Lemma barLines_length (midiData : MidiData.t) :
  num 0 ≤ MidiData.duration midiData →
  Z.of_nat (length (barLines midiData))
  = (Math_ceil (MidiData.duration midiData / num 2)%Qc + 1)%Z.
Proof.
  intros Hd. unfold barLines. rewrite length_fmap, length_seq.
  destruct (half_duration_ceiling (MidiData.duration midiData)) as [H1 _].
  set (c := Math_ceil (MidiData.duration midiData / num 2)) in *. clearbody c.
  assert (0 <= inject_Z c)%Q as H.
  { qc_to_q. set (cq := inject_Z c) in *. clearbody cq. lra. }
  rewrite <- (Zle_Qle 0) in H. lia.
Qed.

(** X3. For a song of non-negative duration there is a bar line every 200
    pixels from x = 100; all but the last lie left of the end of the song,
    and the last one lies at the end or less than 200 pixels right of it. *)
Theorem barLines_reach_song_end (midiData : MidiData.t) (i : nat) (x : number) :
  num 0 ≤ MidiData.duration midiData →
  barLines midiData !! i = Some x →
  x = num 100 + of_Z (Z.of_nat i) * num 200 ∧
  ((S i < length (barLines midiData))%nat →
     x < playheadX (MidiData.duration midiData)) ∧
  (S i = length (barLines midiData) →
     playheadX (MidiData.duration midiData) ≤ x ∧
     x < playheadX (MidiData.duration midiData) + num 200).
Proof.
  intros Hd Hx. pose proof (barLines_length midiData Hd) as Hlen.
  destruct (half_duration_ceiling (MidiData.duration midiData)) as [H1 H2].
  set (c := Math_ceil (MidiData.duration midiData / num 2)) in *.
  unfold barLines in Hx. fold c in Hx. clearbody c. rewrite list_lookup_fmap in Hx.
  destruct (seq 0 _ !! i) as [j|] eqn:Hj; [|done].
  apply lookup_seq in Hj as [-> _]. simpl in Hx. injection Hx as <-.
  set (n := length (barLines midiData)) in *. clearbody n.
  split; [|split].
  - apply Qc_is_canon. unfold PIXELS_PER_SECOND. qc_to_q. ring.
  - intros Hi. assert (Z.of_nat i <= c - 1)%Z as Hic by lia.
    rewrite Zle_Qle in Hic. unfold Z.sub in Hic. rewrite inject_Z_plus in Hic.
    replace (inject_Z (- (1))) with (-1)%Q in Hic by reflexivity.
    unfold playheadX, PIXELS_PER_SECOND. qc_to_q.
    set (iq := inject_Z (Z.of_nat i)) in *. set (cq := inject_Z c) in *.
    clearbody iq cq. lra.
  - intros Hi. assert (Z.of_nat i = c) as -> by lia.
    unfold playheadX, PIXELS_PER_SECOND. qc_to_q.
    set (cq := inject_Z c) in *. clearbody cq. split; lra.
Qed.

Lemma barLines_reach_song_end_witness :
  barLines App.songData !! 8%nat = Some (num 1700) ∧
  playheadX (MidiData.duration App.songData) ≤ num 1700.
Proof.
  destruct (barLines_reach_song_end App.songData 8 (num 1700)) as (_ & _ & H).
  - by vm_compute.
  - by vm_compute.
  - split; [by vm_compute|]. by destruct (H eq_refl).
Defined.

(** X4. Every pitch of the map is drawn between y = 15 and y = 115, the
    two ends being reached by the highest pitch, 86, and the lowest, 59; of
    two pitches of the map the higher one is drawn strictly higher on the
    page (a smaller y). *)
Theorem getNoteY_decreasing_on_map (m1 m2 : Z) :
  m1 ∈ mappedPitches → m2 ∈ mappedPitches →
  num 15 ≤ getNoteY (of_Z m1) ∧ getNoteY (of_Z m1) ≤ num 115 ∧
  num 15 ≤ getNoteY (of_Z m2) ∧ getNoteY (of_Z m2) ≤ num 115 ∧
  getNoteY (of_Z 86) = num 15 ∧ getNoteY (of_Z 59) = num 115 ∧
  ((m1 < m2)%Z → getNoteY (of_Z m2) < getNoteY (of_Z m1)).
Proof.
  intros H1 H2.
  assert (Forall (λ a, num 15 ≤ getNoteY (of_Z a) ∧ getNoteY (of_Z a) ≤ num 115)
                 mappedPitches) as Hbounds.
  { compute_done. }
  assert (Forall (λ a, Forall (λ b,
            (a < b)%Z → getNoteY (of_Z b) < getNoteY (of_Z a))
            mappedPitches) mappedPitches) as Hall.
  { compute_done. }
  rewrite Forall_forall in Hbounds.
  destruct (Hbounds m1 H1) as [Hlo1 Hhi1]. destruct (Hbounds m2 H2) as [Hlo2 Hhi2].
  rewrite Forall_forall in Hall. specialize (Hall m1 H1).
  rewrite Forall_forall in Hall.
  split_and!; [done..|by apply Qc_is_canon|by apply Qc_is_canon|by apply Hall].
Qed.

Lemma getNoteY_decreasing_on_map_witness :
  getNoteY (of_Z 62) < getNoteY (of_Z 60) ∧ num 15 ≤ getNoteY (of_Z 62).
Proof.
  destruct (getNoteY_decreasing_on_map 60 62) as (_ & _ & Hlo & _ & _ & _ & Hlt).
  - unfold mappedPitches. rewrite !elem_of_cons. tauto.
  - unfold mappedPitches. rewrite !elem_of_cons. tauto.
  - split; [apply Hlt; lia|exact Hlo].
Defined.

(** X5. Between C4 and E5 a pitch that the map lacks (a sharp) goes through
    the linear fallback, which counts semitones where the map counts staff
    steps: the note is drawn strictly lower on the page than the pitch a
    semitone above it and no higher than the pitch a semitone below it. *)
Theorem getNoteY_sharps_drawn_low (m : Z) :
  (60 ≤ m ≤ 76)%Z → m ∉ mappedPitches →
  getNoteY (of_Z m) = num 445 - num 5 * of_Z m ∧
  getNoteY (of_Z (m - 1)) ≤ getNoteY (of_Z m) ∧
  getNoteY (of_Z (m + 1)) < getNoteY (of_Z m).
Proof.
  intros Hm Hnot.
  assert (Forall (λ k,
            k ∉ mappedPitches →
            getNoteY (of_Z k) = num 445 - num 5 * of_Z k ∧
            getNoteY (of_Z (k - 1)) ≤ getNoteY (of_Z k) ∧
            getNoteY (of_Z (k + 1)) < getNoteY (of_Z k))
            (seqZ 60 17)) as Hall.
  { compute_done. }
  rewrite Forall_forall in Hall. apply Hall; [|done].
  apply elem_of_seqZ. lia.
Qed.

Lemma getNoteY_sharps_drawn_low_witness :
  getNoteY (of_Z 60) ≤ getNoteY (of_Z 61) ∧ getNoteY (of_Z 62) < getNoteY (of_Z 61).
Proof.
  destruct (getNoteY_sharps_drawn_low 61) as (_ & H1 & H2); [lia| |by split].
  unfold mappedPitches. rewrite !elem_of_cons, !elem_of_nil.
  intros H. repeat destruct H as [H|H]; try discriminate H. done.
Defined.



Lemma getNoteY_unmapped (m : Z) :
  m ∉ mappedPitches →
  (this (getNoteY (of_Z m)) == 445 - 5 * inject_Z m)%Q.
Proof.
  intros Hm. unfold getNoteY. rewrite get_property_of_Z.
  assert (map !! m = None) as ->.
  { apply eq_None_not_Some. by rewrite <- map_mapped. }
  unfold STAFF_TOP_Y, STAFF_LINE_HEIGHT.
  unfold Qcminus, Qcplus, Qcmult, Qcopp, num, Q2Qc. cbn [this].
  rewrite !Qred_correct, this_of_Z. ring.
Qed.

(** X22. For every integer pitch the stem points down exactly when the note
    head is drawn on or above the middle line of the staff (y <= 80), and up
    otherwise; the tip of the stem is 28 pixels from the head, towards the
    middle line, and the name label is on the other side of the head. *)
Theorem stem_points_to_middle_line (m : Z) (note : Note.t) (x : number) :
  Note.midi note = of_Z m →
  let y := getNoteY (Note.midi note) in
  staffLines !! 2%nat = Some (num 80) ∧
  (stemDirection note = down ↔ y ≤ num 80) ∧
  (stemDirection note = up ↔ num 80 < y) ∧
  (stemDirection note = down → (stem note x y).2 = y + num 28 ∧ labelY note y < y) ∧
  (stemDirection note = up → (stem note x y).2 = y - num 28 ∧ y < labelY note y).
Proof.
  intros Hm y. unfold y. clear y. rewrite Hm.
  assert (num 71 ≤ of_Z m ↔ getNoteY (of_Z m) ≤ num 80) as Hiff.
  { change (num 71) with (of_Z 71). rewrite of_Z_le.
    destruct (decide (m ∈ mappedPitches)) as [Hin|Hout].
    - assert (Forall (λ k, (71 ≤ k)%Z ↔ getNoteY (of_Z k) ≤ num 80) mappedPitches)
        as Hall.
      { unfold mappedPitches. repeat constructor; try (by vm_compute); try lia;
          intros H; exfalso; by vm_compute in H. }
      rewrite Forall_forall in Hall. by apply Hall.
    - pose proof (getNoteY_unmapped m Hout) as Hy.
      assert (m ≠ 71 ∧ m ≠ 72)%Z as [H71 H72].
      { split; intros ->; apply Hout; unfold mappedPitches;
          rewrite !elem_of_cons; tauto. }
      unfold Qcle. rewrite Hy. change (this (num 80)) with 80%Q.
      split.
      + intros H. assert (73 <= m)%Z as H' by lia. rewrite Zle_Qle in H'.
        set (q := inject_Z m) in *. clearbody q.
        change (inject_Z 73) with 73%Q in H'. lra.
      + intros H. destruct (decide (71 ≤ m)%Z) as [|Hlt]; [done|exfalso].
        assert (m <= 70)%Z as H' by lia. rewrite Zle_Qle in H'.
        set (q := inject_Z m) in *. clearbody q.
        change (inject_Z 70) with 70%Q in H'. lra. }
  assert (stemDirection note = down ↔ num 71 ≤ of_Z m) as Hdown.
  { unfold stemDirection. rewrite Hm. case_decide; split; done. }
  assert (stemDirection note = up ↔ ¬ num 71 ≤ of_Z m) as Hup.
  { unfold stemDirection. rewrite Hm. case_decide; split; done. }
  split; [done|]. split; [by rewrite Hdown|]. split.
  { rewrite Hup, Hiff. split; [apply Qcnot_le_lt|apply Qclt_not_le]. }
  unfold stem, labelY, stemLength.
  split; intros ->; (split; [done|]); set (y := getNoteY (of_Z m)); clearbody y;
    qc_to_q; lra.
Qed.

Lemma stem_points_to_middle_line_witness :
  stemDirection (App.createNote "C4" (num 60) (num 0) (num 1)) = up ∧
  num 80 < getNoteY (num 60).
Proof.
  destruct (stem_points_to_middle_line 60
              (App.createNote "C4" (num 60) (num 0) (num 1)) (num 100) eq_refl)
    as (_ & _ & Hup & _).
  split; [reflexivity|]. by apply Hup.
Defined.

End SheetMusicView.

(** ** The piano roll *)

Section PianoRollView.

Import PianoRoll.

Lemma midiRange_acc (notes : list Note.t) (a b : number) :
  let r := fold_left
             (λ acc n,
                (if decide (Note.midi n < acc.1) then Note.midi n else acc.1,
                 if decide (acc.2 < Note.midi n) then Note.midi n else acc.2))
             notes (a, b) in
  r.1 ≤ a ∧ b ≤ r.2 ∧ Forall (λ n, r.1 ≤ Note.midi n ∧ Note.midi n ≤ r.2) notes.
Proof.
  revert a b. induction notes as [|n notes IH]; intros a b; simpl.
  - split_and!; [apply Qcle_refl..|constructor].
  - destruct (IH (if decide (Note.midi n < a) then Note.midi n else a)
                 (if decide (b < Note.midi n) then Note.midi n else b))
      as (Hlo & Hhi & Hall).
    simpl in *.
    set (r := fold_left _ notes _) in *. clearbody r.
    assert (r.1 ≤ a ∧ r.1 ≤ Note.midi n) as [Ha Hn1].
    { destruct (decide (Note.midi n < a)) as [Hc|Hc].
      - split; [|done]. eapply Qcle_trans; [done|]. by apply Qclt_le_weak.
      - split; [done|]. eapply Qcle_trans; [done|]. by apply Qcnot_lt_le. }
    assert (b ≤ r.2 ∧ Note.midi n ≤ r.2) as [Hb Hn2].
    { destruct (decide (b < Note.midi n)) as [Hc|Hc].
      - split; [|done]. eapply Qcle_trans; [|done]. by apply Qclt_le_weak.
      - split; [done|]. eapply Qcle_trans; [|done]. by apply Qcnot_lt_le. }
    split_and!; [done..|]. by constructor.
Qed.

Lemma midiRange_bounds (notes : list Note.t) :
  Forall (λ n, (midiRange notes).1 ≤ Note.midi n ∧ Note.midi n ≤ (midiRange notes).2)
         notes.
Proof. apply (midiRange_acc notes (num 127) (num 0)). Qed.

Lemma layout_Some (d : MidiData.t) (l : Layout) :
  layout (Some d) = Some l →
  allNotes d ≠ [] ∧
  minMidi l = Math_max (num 0) ((midiRange (allNotes d)).1 - num 2) ∧
  maxMidi l = Math_min (num 127) ((midiRange (allNotes d)).2 + num 2) ∧
  noteRange l = maxMidi l - minMidi l + num 1 ∧
  canvasHeight l = Math_max (num 300) (noteRange l * NOTE_HEIGHT).
Proof.
  unfold layout. destruct (allNotes d) as [|n notes] eqn:Hn; [done|].
  intros [= <-]. done.
Qed.

(** Nothing is laid out, and so nothing drawn, without data or without
    notes. *)
Lemma layout_None (midiData : option MidiData.t) :
  layout midiData = None ↔ midiData = None ∨ ∃ d, midiData = Some d ∧ allNotes d = [].
Proof.
  unfold layout. destruct midiData as [d|]; [|split; auto].
  destruct (allNotes d) as [|n notes] eqn:Hn.
  - split; [|done]. intros _. right. eauto.
  - split; [done|]. intros [|(d' & [= <-] & H)]; [done|]. by rewrite Hn in H.
Qed.

(** X7. A note whose pitch lies between 0 and 127 is drawn inside the canvas
    vertically: its rectangle, 16 pixels high, starts at or below the top
    edge and ends above the bottom edge. The padded range stays within 0
    and 127 and the canvas is at least 300 pixels high. *)
Theorem noteRect_inside_canvas (d : MidiData.t) (l : Layout)
    (canvasWidth currentTime : number) (note : Note.t) (r : Rect) :
  layout (Some d) = Some l →
  note ∈ allNotes d →
  num 0 ≤ Note.midi note → Note.midi note ≤ num 127 →
  noteRect canvasWidth currentTime l note = Some r →
  num 0 ≤ minMidi l ∧ minMidi l ≤ Note.midi note ∧
  Note.midi note ≤ maxMidi l ∧ maxMidi l ≤ num 127 ∧
  num 300 ≤ canvasHeight l ∧
  rect_h r = num 16 ∧
  num 0 ≤ rect_y r ∧ rect_y r + rect_h r ≤ canvasHeight l.
Proof.
  intros (_ & Hmin & Hmax & Hrange & Hheight)%layout_Some Hin H0 H127 Hr.
  pose proof (midiRange_bounds (allNotes d)) as Hb.
  rewrite Forall_forall in Hb. destruct (Hb note Hin) as [Hlo Hhi]. clear Hb.
  set (lo := (midiRange (allNotes d)).1) in *.
  set (hi := (midiRange (allNotes d)).2) in *. clearbody lo hi.
  assert (num 0 ≤ minMidi l) as Hmin0 by (rewrite Hmin; apply Math_max_l).
  assert (minMidi l ≤ Note.midi note) as Hminn.
  { rewrite Hmin. destruct (Math_max_cases (num 0) (lo - num 2)) as [[_ ->]|[_ ->]];
      [|done]. qc_to_q. lra. }
  assert (Note.midi note ≤ maxMidi l) as Hmaxn.
  { rewrite Hmax. destruct (Math_min_cases (num 127) (hi + num 2)) as [[_ ->]|[_ ->]];
      [done|]. qc_to_q. lra. }
  assert (maxMidi l ≤ num 127) as Hmax127.
  { rewrite Hmax. destruct (Math_min_cases (num 127) (hi + num 2)) as [[_ ->]|[H ->]].
    - apply Qcle_refl.
    - by apply Qclt_le_weak. }
  assert (noteRange l * NOTE_HEIGHT ≤ canvasHeight l) as Hh.
  { rewrite Hheight. apply Math_max_r. }
  assert (num 300 ≤ canvasHeight l) as H300.
  { rewrite Hheight. apply Math_max_l. }
  unfold noteRect in Hr. case_decide; [done|]. injection Hr as <-. simpl.
  split_and!; try done.
  - unfold NOTE_HEIGHT. clear -Hmaxn. qc_to_q. lra.
  - rewrite Hrange in Hh. unfold NOTE_HEIGHT in *.
    clear -Hh Hminn. qc_to_q. lra.
Qed.

Lemma noteRect_inside_canvas_witness :
  ∃ l r,
    layout (Some App.songData) = Some l ∧
    noteRect (num 800) (num 0) l (App.createNote "E4" (num 64) (num 0) (num 1)) = Some r ∧
    num 0 ≤ rect_y r ∧ rect_y r + rect_h r ≤ canvasHeight l.
Proof.
  exists (mkLayout (num 58) (num 69) (num 12) (num 300)).
  eexists. split; [reflexivity|]. split; [reflexivity|].
  pose proof (noteRect_inside_canvas App.songData
                (mkLayout (num 58) (num 69) (num 12) (num 300)) (num 800) (num 0)
                (App.createNote "E4" (num 64) (num 0) (num 1)) _
                eq_refl (list_elem_of_here _ _) ltac:(by vm_compute)
                ltac:(by vm_compute) eq_refl)
    as (_ & _ & _ & _ & _ & _ & H1 & H2).
  split; [exact H1|exact H2].
Defined.






Lemma midiRange_integers (notes : list Note.t) (a0 b0 : Z) :
  Forall (λ n, ∃ z, Note.midi n = of_Z z ∧ (0 ≤ z ≤ 127)%Z) notes →
  (0 ≤ a0 ≤ 127)%Z → (0 ≤ b0 ≤ 127)%Z →
  ∃ a b : Z,
    fold_left
      (λ acc n,
         (if decide (Note.midi n < acc.1) then Note.midi n else acc.1,
          if decide (acc.2 < Note.midi n) then Note.midi n else acc.2))
      notes (of_Z a0, of_Z b0) = (of_Z a, of_Z b) ∧
    (0 ≤ a ≤ a0)%Z ∧ (b0 ≤ b ≤ 127)%Z ∧
    Forall (λ n, ∃ z, Note.midi n = of_Z z ∧ (a ≤ z ≤ b)%Z) notes.
Proof.
  intros Hall. revert a0 b0.
  induction Hall as [|n notes (z & Hz & Hrange) _ IH]; intros a0 b0 Ha Hb; simpl.
  - exists a0, b0. split_and!; try done; try lia.
  - rewrite Hz.
    destruct (IH (if decide (z < a0)%Z then z else a0)
                 (if decide (b0 < z)%Z then z else b0))
      as (a & b & Hfold & Ha' & Hb' & Hall'); [by case_decide; lia..|].
    exists a, b. split_and!.
    + rewrite <- Hfold. f_equal. f_equal.
      * destruct (decide (z < a0)%Z) as [H|H].
        -- by rewrite decide_True by (by apply of_Z_lt).
        -- by rewrite decide_False by (by rewrite of_Z_lt).
      * destruct (decide (b0 < z)%Z) as [H|H].
        -- by rewrite decide_True by (by apply of_Z_lt).
        -- by rewrite decide_False by (by rewrite of_Z_lt).
    + repeat case_decide; lia.
    + repeat case_decide; lia.
    + repeat case_decide; lia.
    + repeat case_decide; lia.
    + constructor; [|done]. exists z. split; [done|].
      repeat case_decide; lia.
Qed.

Lemma Math_max_of_Z (a b : Z) : Math_max (of_Z a) (of_Z b) = of_Z (a `max` b).
Proof.
  unfold Math_max. destruct (decide (of_Z a ≤ of_Z b)) as [H|H];
    rewrite of_Z_le in H.
  - by rewrite Z.max_r by lia.
  - by rewrite Z.max_l by lia.
Qed.

Lemma Math_min_of_Z (a b : Z) : Math_min (of_Z a) (of_Z b) = of_Z (a `min` b).
Proof.
  unfold Math_min. destruct (decide (of_Z a ≤ of_Z b)) as [H|H];
    rewrite of_Z_le in H.
  - by rewrite Z.min_l by lia.
  - by rewrite Z.min_r by lia.
Qed.

(** X9. When every note has an integer pitch between 0 and 127, the rows of
    the background are the integer pitches from the top of the padded range
    down to its bottom, all between 0 and 127, 20 pixels apart; each note has
    the row of its pitch, and its rectangle starts 2 pixels below the top of
    that row. *)
Theorem rows_cover_integer_pitches (d : MidiData.t) (l : Layout) :
  layout (Some d) = Some l →
  Forall (λ n, ∃ z, Note.midi n = of_Z z ∧ (0 ≤ z ≤ 127)%Z) (allNotes d) →
  ∃ lo hi : Z,
    (0 ≤ lo ≤ hi)%Z ∧ (hi ≤ 127)%Z ∧
    minMidi l = of_Z lo ∧ maxMidi l = of_Z hi ∧
    rows l = (λ i : nat, (of_Z (hi - Z.of_nat i), of_Z (20 * Z.of_nat i)))
               <$> seq 0 (Z.to_nat (hi - lo + 1)) ∧
    Forall (λ n, ∃ z, Note.midi n = of_Z z ∧ (lo ≤ z ≤ hi)%Z ∧
                      rows l !! Z.to_nat (hi - z)
                        = Some (Note.midi n, of_Z (20 * (hi - z))) ∧
                      ∀ cw t r, noteRect cw t l n = Some r →
                                rect_y r = of_Z (20 * (hi - z)) + num 2)
           (allNotes d).
Proof.
  intros (Hne & Hmin & Hmax & Hrange & _)%layout_Some Hall.
  destruct (midiRange_integers (allNotes d) 127 0 Hall) as
    (a & b & Hfold & Ha & Hb & Hall'); [lia..|].
  change (fold_left _ _ _) with (midiRange (allNotes d)) in Hfold.
  rewrite Hfold in Hmin, Hmax. simpl in Hmin, Hmax.
  change (num 2) with (of_Z 2) in Hmin, Hmax.
  change (num 0) with (of_Z 0) in Hmin. change (num 127) with (of_Z 127) in Hmax.
  rewrite of_Z_minus, Math_max_of_Z in Hmin.
  rewrite of_Z_plus, Math_min_of_Z in Hmax.
  assert (a ≤ b)%Z as Hab.
  { destruct (allNotes d) as [|n notes]; [done|].
    apply Forall_cons in Hall' as [(z & _ & ?) _]. lia. }
  set (lo := (0 `max` (a - 2))%Z) in *. set (hi := (127 `min` (b + 2))%Z) in *.
  assert (noteRange l = of_Z (hi - lo + 1)) as Hrange'.
  { rewrite Hrange, Hmin, Hmax. change (num 1) with (of_Z 1).
    by rewrite of_Z_minus, of_Z_plus. }
  assert (rows l = (λ i : nat, (of_Z (hi - Z.of_nat i), of_Z (20 * Z.of_nat i)))
                     <$> seq 0 (Z.to_nat (hi - lo + 1))) as Hrows.
  { unfold rows. rewrite Hrange', Math_ceil_of_Z, Hmax.
    apply list_fmap_ext. intros _ i _. f_equal.
    - by rewrite of_Z_minus.
    - unfold NOTE_HEIGHT. change (num 20) with (of_Z 20).
      rewrite of_Z_mult. f_equal. lia. }
  exists lo, hi. split_and!; try done; try lia.
  eapply Forall_impl; [exact Hall'|]. intros n (z & Hz & Hzr). simpl.
  exists z. split_and!; try done; try lia.
  - rewrite Hrows, list_lookup_fmap, lookup_seq_lt by lia. simpl.
    rewrite Hz. do 3 f_equal; lia.
  - intros cw t r. unfold noteRect. case_decide; [done|]. intros [= <-]. simpl.
    rewrite Hmax, Hz, of_Z_minus. unfold NOTE_HEIGHT. change (num 20) with (of_Z 20).
    rewrite of_Z_mult. do 2 f_equal. lia.
Qed.

Lemma rows_cover_integer_pitches_witness :
  ∃ lo hi : Z,
    (0 ≤ lo ≤ hi)%Z ∧ (hi ≤ 127)%Z ∧
    rows (mkLayout (num 58) (num 69) (num 12) (num 300))
      = (λ i : nat, (of_Z (hi - Z.of_nat i), of_Z (20 * Z.of_nat i)))
          <$> seq 0 (Z.to_nat (hi - lo + 1)).
Proof.
  destruct (rows_cover_integer_pitches App.songData
              (mkLayout (num 58) (num 69) (num 12) (num 300)) eq_refl)
    as (lo & hi & H1 & H2 & _ & _ & H3 & _).
  - eapply Forall_impl; [apply notes_pitches|].
    intros n (z & Hz & Hin). exists z. split; [done|].
    unfold songPitches in Hin. rewrite !elem_of_cons, elem_of_nil in Hin.
    repeat destruct Hin as [->|Hin]; lia.
  - exists lo, hi. split; [exact H1|]. split; [exact H2|exact H3].
Defined.

End PianoRollView.

(** ** The state machine of the player *)

Section Player.

Import App.

Lemma mounted_consistent : consistent (exec loadUserSong initial).
Proof. split_and!; [done|done|]. left. done. Qed.

Lemma handle_consistent (e : Event) (s : State) :
  consistent s → ∃ s', handle e s = (inr tt, s') ∧ consistent s'.
Proof.
  intros (Hd & Hplay & Haudio).
  destruct s as [d playing rate time ready audio synths part [tstate tbpm]].
  simpl in *. subst d.
  destruct e as [| |r|t].
  - destruct Haudio as [(-> & -> & -> & ->)|(-> & -> & -> & ->)].
    + destruct playing; (eexists; split; [reflexivity|]);
        (split_and!; [done|done|right; done]).
    + destruct playing; (eexists; split; [reflexivity|]);
        (split_and!; [done|simpl; split; done|right; done]).
  - eexists; split; [reflexivity|]. split_and!; [done|simpl; split; done|done].
  - eexists; split; [by eapply handleSpeedChange_run|]. split_and!; done.
  - destruct playing; (eexists; split; [reflexivity|]); split_and!; done.
Qed.

Lemma reachable_consistent (s : State) : reachable s → consistent s.
Proof.
  induction 1 as [|s e _ IH]; [apply mounted_consistent|].
  destruct (handle_consistent e s IH) as (s' & Hrun & Hs').
  unfold exec. by rewrite Hrun.
Qed.

(** X11. No handler throws in a state the mounted component can be in. *)
Theorem handlers_never_throw (s : State) (e : Event) :
  reachable s → ∃ s', handle e s = (inr tt, s') ∧ reachable s'.
Proof.
  intros Hs. destruct (handle_consistent e s (reachable_consistent s Hs))
    as (s' & Hrun & _).
  exists s'. split; [done|].
  replace s' with (exec (handle e) s) by (unfold exec; by rewrite Hrun).
  by constructor.
Qed.

Lemma handlers_never_throw_witness :
  ∃ s', handle TogglePlay (exec loadUserSong initial) = (inr tt, s').
Proof.
  destruct (handlers_never_throw (exec loadUserSong initial) TogglePlay reach_mount)
    as (s' & Hrun & _).
  by exists s'.
Defined.

(** X12. In every reachable state [isPlaying] is true exactly when the
    transport is started. *)
Theorem isPlaying_iff_transport_started (s : State) :
  reachable s →
  (isPlaying s = true ↔ Tone.state (transportRef s) = Tone.started).
Proof. intros Hs. by destruct (reachable_consistent s Hs) as (_ & H & _). Qed.

Lemma isPlaying_iff_transport_started_witness :
  isPlaying (exec (handle TogglePlay) (exec loadUserSong initial)) = true ∧
  Tone.state (transportRef (exec (handle TogglePlay) (exec loadUserSong initial)))
  = Tone.started.
Proof.
  split; [reflexivity|].
  apply (isPlaying_iff_transport_started
           (exec (handle TogglePlay) (exec loadUserSong initial))).
  - apply reach_event, reach_mount.
  - reflexivity.
Defined.

(** X13. With handlers that run one after another, the audio objects are
    set up once: in every reachable state either nothing is set up yet, or
    there is exactly one synth and the part holds the 30 events of the
    built-in song and is not disposed; and once [isReady] is true,
    [togglePlay] no longer runs [setupSynthesizers]: it starts or pauses the
    transport and flips [isPlaying], and changes nothing else. *)
Theorem audio_set_up_once (s : State) :
  reachable s →
  ((isReady s = false ∧ partRef s = None ∧ synthsRef s = []) ∨
   (isReady s = true ∧ synthsRef s = [fluteSynth] ∧
    ∃ part, partRef s = Some part ∧ Tone.disposed part = false ∧
            Tone.events part = toPartEvent <$> notes ∧
            length (Tone.events part) = 30%nat)) ∧
  (isReady s = true →
     handle TogglePlay s
     = (inr tt,
        setIsPlaying (negb (isPlaying s))
          (onTransport (if isPlaying s then Tone.pause else Tone.start) s))) ∧
  (isReady s = false →
     isReady (exec (handle TogglePlay) s) = true ∧
     partRef (exec (handle TogglePlay) s) = Some songPart).
Proof.
  intros Hs. destruct (reachable_consistent s Hs) as (Hd & _ & Haudio).
  split; [|split].
  - destruct Haudio as [H|H].
    + left. by destruct H as (? & _ & ? & ?).
    + right. destruct H as (? & _ & ? & ?). split_and!; [done..|].
      exists songPart. split_and!; done.
  - intros Hready.
    destruct s as [d playing rate time ready audio synths part [tstate tbpm]].
    simpl in *. subst d ready.
    destruct Haudio as [(? & _)|(_ & -> & -> & ->)]; [done|].
    by destruct playing.
  - intros Hready.
    destruct s as [d playing rate time ready audio synths part [tstate tbpm]].
    simpl in *. subst d ready.
    destruct Haudio as [(_ & -> & -> & ->)|(? & _)]; [|done].
    by destruct playing.
Qed.

Lemma audio_set_up_once_witness :
  synthsRef (exec (handle TogglePlay)
               (exec (handle TogglePlay)
                  (exec (handle TogglePlay) (exec loadUserSong initial))))
  = [fluteSynth].
Proof.
  destruct (audio_set_up_once
              (exec (handle TogglePlay)
                 (exec (handle TogglePlay)
                    (exec (handle TogglePlay) (exec loadUserSong initial)))))
    as ([(H & _)|(_ & H & _)] & _).
  - do 3 apply reach_event. apply reach_mount.
  - discriminate H.
  - exact H.
Defined.

(** X14. A speed chosen before the first play is lost when playing starts: the
    first [togglePlay] sets up the audio, which puts the transport back to
    the 120 BPM of the song while [playbackRate] keeps the chosen value.
    Once the audio is set up, the chosen speed survives [togglePlay]. *)
Theorem speed_before_first_play_is_reset (s : State) (r : number) :
  reachable s →
  let s1 := exec (handle (SpeedChange r)) s in
  let s2 := exec (handle TogglePlay) s1 in
  playbackRate s1 = r ∧ Tone.bpm (transportRef s1) = num 120 * r ∧
  playbackRate s2 = r ∧
  (isReady s = false → Tone.bpm (transportRef s2) = num 120) ∧
  (isReady s = true → Tone.bpm (transportRef s2) = num 120 * r).
Proof.
  intros (Hd & _ & Haudio)%reachable_consistent.
  destruct s as [d playing rate time ready audio synths part [tstate tbpm]].
  simpl in Hd, Haudio. subst d.
  destruct Haudio as [(-> & -> & -> & ->)|(-> & -> & -> & ->)];
    destruct playing; simpl; split_and!; done.
Qed.

Lemma speed_before_first_play_is_reset_witness :
  let s2 := exec (handle TogglePlay)
              (exec (handle (SpeedChange (num 1.5))) (exec loadUserSong initial)) in
  playbackRate s2 = num 1.5 ∧ Tone.bpm (transportRef s2) = num 120.
Proof.
  destruct (speed_before_first_play_is_reset (exec loadUserSong initial) (num 1.5)
              reach_mount) as (_ & _ & H1 & H2 & _).
  split; [exact H1|exact (H2 eq_refl)].
Defined.

(** X15. On data without a track 0 or without a tempo entry [setupSynthesizers]
    throws a [TypeError] half way: the transport is already stopped and the
    old synths are replaced by the new one, the BPM is left as it was, and
    the part is the old one, disposed, when track 0 is missing, or the new
    one, already started, when only the tempo is missing. *)
Theorem setupSynthesizers_throws_half_way (data : MidiData.t) (s : State) :
  MidiData.tracks data = [] ∨ Header.tempos (MidiData.header data) = [] →
  ∃ message s',
    setupSynthesizers data s = (inl (TypeError message), s') ∧
    Tone.state (transportRef s') = Tone.stopped ∧
    Tone.bpm (transportRef s') = Tone.bpm (transportRef s) ∧
    synthsRef s' = [fluteSynth] ∧
    midiData s' = midiData s ∧ isReady s' = isReady s ∧
    (MidiData.tracks data = [] → partRef s' = Tone.dispose <$> partRef s) ∧
    (∀ track rest, MidiData.tracks data = track :: rest →
       partRef s' = Some (Tone.mkPart (toPartEvent <$> Track.notes track) (num 0) false)).
Proof.
  intros Hcase. unfold setupSynthesizers, first_of.
  unfold mbind, mret, M_bind, M_ret, Eff.bind, Eff.ret, modify, throw. cbn beta iota.
  destruct (MidiData.tracks data) as [|track rest] eqn:Ht.
  - eexists _, _. split; [reflexivity|]. split_and!; done.
  - destruct Hcase as [|Hb]; [done|]. rewrite Hb.
    eexists _, _. split; [reflexivity|]. split_and!; try done.
    by intros ? ? [= <- <-].
Qed.

Lemma setupSynthesizers_throws_half_way_witness :
  ∃ message s',
    setupSynthesizers noTempoSong initial = (inl (TypeError message), s') ∧
    Tone.bpm (transportRef s') = num 120 ∧
    synthsRef s' = [fluteSynth].
Proof.
  destruct (setupSynthesizers_throws_half_way noTempoSong initial (or_intror eq_refl))
    as (message & s' & Hrun & _ & Hbpm & Hsynths & _).
  exists message, s'. split_and!; done.
Defined.

(** X16. Without a loaded song, or with a song that has no tempo entry,
    [handleSpeedChange] still records the chosen rate but leaves the BPM of
    the transport alone; in the second case it throws a [TypeError]. *)
Theorem handleSpeedChange_without_tempo (r : number) (s : State) :
  midiData s = None ∨
  (∃ d, midiData s = Some d ∧ Header.tempos (MidiData.header d) = []) →
  exec (handleSpeedChange r) s = setPlaybackRate r s ∧
  Tone.bpm (transportRef (exec (handleSpeedChange r) s)) = Tone.bpm (transportRef s) ∧
  (midiData s = None → (handleSpeedChange r s).1 = inr tt) ∧
  (midiData s ≠ None → ∃ message, (handleSpeedChange r s).1 = inl (TypeError message)).
Proof.
  intros Hcase. unfold exec, handleSpeedChange, first_of.
  unfold mbind, mret, M_bind, M_ret, Eff.bind, Eff.ret, modify, get, throw.
  cbn beta iota. simpl.
  destruct Hcase as [Hd|(d & Hd & Hb)]; rewrite Hd.
  - split_and!; done.
  - rewrite Hb. split_and!; try done. eauto.
Qed.

Lemma handleSpeedChange_without_tempo_witness :
  exec (handleSpeedChange (num 1.5)) initial = setPlaybackRate (num 1.5) initial.
Proof.
  by destruct (handleSpeedChange_without_tempo (num 1.5) initial (or_introl eq_refl)).
Defined.

End Player.

(** ** More on the exchange with the hosted model *)

Section ExchangeEffects.

Import GeminiService.

Context {Json : Type}.
Variable JSON_parse : string → option Json.
Variable other : number → string.
Variable env : Env.

Abbreviation analyze' := (analyzeMidiForStudents Json JSON_parse other env).

Lemma requestFor_track (d : MidiData.t) (track : Track.t) (rest : list Track.t) :
  MidiData.tracks d = track :: rest →
  requestFor other d
  = Some (request (prompt (uniqueNotes track)
                          (Number_toString other (tempo d)) (duration other d))).
Proof. intros Ht. unfold requestFor. by rewrite Ht. Qed.

Lemma afterCall_parsed (answer : Exception + Response) (j : Json) :
  afterCall JSON_parse answer = inr (Parsed j)
  ↔ ∃ t, answer = inr (mkResponse (Some t)) ∧ t ≠ "" ∧ JSON_parse t = Some j.
Proof.
  unfold afterCall. destruct answer as [e|[[t|]]]; simpl.
  - split; [done|]. by intros (t & ? & _).
  - case_decide as Ht.
    + split; [done|]. intros (t' & [= <-] & Hne & _). done.
    + destruct (JSON_parse t) as [j'|] eqn:Hp.
      * split.
        -- intros [= <-]. eauto.
        -- intros (t' & [= <-] & _ & Hj). rewrite Hp in Hj. by injection Hj as <-.
      * split; [done|]. intros (t' & [= <-] & _ & Hj). by rewrite Hp in Hj.
  - split; [done|]. by intros (t & ? & _).
Qed.

(** X17. The promise resolves with what [JSON.parse] returned exactly when a key
    is configured, track 0 exists, the model answers the request with a
    non-empty text and that text parses; the parsed value is passed on as it
    is. In every other case the promise resolves with the fallback. *)
Theorem analyze_parsed_iff (d : MidiData.t) (w : World) (j : Json) :
  ((analyze' d w).1 = Resolved (Parsed j)
   ↔ falsy (API_KEY env) = false ∧
     ∃ r t, requestFor other d = Some r ∧
            generateContent env r = inr (mkResponse (Some t)) ∧
            t ≠ "" ∧ JSON_parse t = Some j) ∧
  ((analyze' d w).1 = Resolved (Literal fallback) ∨
   ∃ j', (analyze' d w).1 = Resolved (Parsed j')).
Proof.
  destruct (falsy (API_KEY env)) eqn:Hk.
  { destruct (tryBlock_not_called JSON_parse other env d w (or_introl Hk)) as [e He].
    rewrite (analyze_caught _ _ _ _ _ _ _ He). simpl.
    split; [|by left]. split; [done|]. by intros [? _]. }
  destruct (MidiData.tracks d) as [|track rest] eqn:Ht.
  { destruct (tryBlock_not_called JSON_parse other env d w (or_intror Ht)) as [e He].
    rewrite (analyze_caught _ _ _ _ _ _ _ He). simpl.
    split; [|by left]. split; [done|].
    intros (_ & r & t & Hr & _). unfold requestFor in Hr. by rewrite Ht in Hr. }
  pose proof (tryBlock_called JSON_parse other env d w track rest Hk Ht) as Hrun.
  pose proof (requestFor_track d track rest Ht) as Hreq.
  set (r0 := request _) in *.
  destruct (afterCall JSON_parse (generateContent env r0)) as [e|v] eqn:Hafter.
  - rewrite (analyze_caught _ _ _ _ _ _ _ Hrun). simpl.
    split; [|by left]. split; [done|].
    intros (_ & r & t & Hr & Hgen & Hne & Hj).
    rewrite Hreq in Hr. injection Hr as <-.
    assert (afterCall JSON_parse (generateContent env r0) = inr (Parsed j)) as H.
    { apply afterCall_parsed. eauto. }
    by rewrite Hafter in H.
  - rewrite (analyze_returned _ _ _ _ _ _ _ Hrun). simpl.
    assert (∃ j', v = Parsed j') as [j' ->].
    { unfold afterCall in Hafter.
      destruct (generateContent env r0) as [?|[[t|]]]; simpl in *; [done| |done].
      case_decide; [done|]. destruct (JSON_parse t); [|done].
      injection Hafter as <-. eauto. }
    split; [|right; eauto]. split.
    + intros [= <-]. split; [done|].
      apply afterCall_parsed in Hafter as (t & Hgen & Hne & Hj).
      exists r0, t. done.
    + intros (_ & r & t & Hr & Hgen & Hne & Hj).
      rewrite Hreq in Hr. injection Hr as <-.
      assert (afterCall JSON_parse (generateContent env r0) = inr (Parsed j)) as H.
      { apply afterCall_parsed. eauto. }
      rewrite Hafter in H. by injection H as ->.
Qed.

(** X18. One call sends at most one request, always to the model
    gemini-2.5-flash and asking for JSON, and none at all when the key or
    track 0 is missing; it writes exactly one error to the console when it
    resolves with the fallback and nothing when it passes on a parsed
    answer. What was sent and logged before is kept. *)
Theorem analyze_effects (d : MidiData.t) (w : World) :
  (∃ sent,
     requests (analyze' d w).2 = requests w ++ sent ∧
     (length sent ≤ 1)%nat ∧
     Forall (λ r, model r = "gemini-2.5-flash" ∧
                  responseMimeType r = "application/json") sent ∧
     (sent = [] ↔ falsy (API_KEY env) = true ∨ MidiData.tracks d = [])) ∧
  (∃ logged,
     console (analyze' d w).2 = console w ++ logged ∧
     ((analyze' d w).1 = Resolved (Literal fallback) → length logged = 1%nat) ∧
     (∀ j, (analyze' d w).1 = Resolved (Parsed j) → logged = [])).
Proof.
  destruct (falsy (API_KEY env)) eqn:Hk.
  { destruct (tryBlock_not_called JSON_parse other env d w (or_introl Hk)) as [e He].
    rewrite (analyze_caught _ _ _ _ _ _ _ He). simpl. split.
    - exists []. rewrite app_nil_r. split_and!; [done|simpl; lia|constructor|]. by split; auto.
    - exists [e]. split_and!; done. }
  destruct (MidiData.tracks d) as [|track rest] eqn:Ht.
  { destruct (tryBlock_not_called JSON_parse other env d w (or_intror Ht)) as [e He].
    rewrite (analyze_caught _ _ _ _ _ _ _ He). simpl. split.
    - exists []. rewrite app_nil_r. split_and!; [done|simpl; lia|constructor|]. by split; auto.
    - exists [e]. split_and!; done. }
  pose proof (tryBlock_called JSON_parse other env d w track rest Hk Ht) as Hrun.
  set (r0 := request _) in *.
  destruct (afterCall JSON_parse (generateContent env r0)) as [e|v] eqn:Hafter.
  - rewrite (analyze_caught _ _ _ _ _ _ _ Hrun). simpl. split.
    + exists [r0]. split_and!; [done|simpl; lia|by repeat constructor|].
      split; [done|]. by intros [|].
    + exists [e]. split_and!; done.
  - rewrite (analyze_returned _ _ _ _ _ _ _ Hrun). simpl. split.
    + exists [r0]. split_and!; [done|simpl; lia|by repeat constructor|].
      split; [done|]. by intros [|].
    + exists []. rewrite app_nil_r. split_and!; [done| |done].
      intros [= ->]. unfold afterCall in Hafter.
      destruct (generateContent env r0) as [?|[[t|]]]; simpl in *; [done| |done].
      case_decide; [done|]. by destruct (JSON_parse t).
Qed.

(** X19. The note names listed in the prompt are those of track 0, each once,
    in ascending order of their code units; there are never more of them
    than notes. *)
Theorem uniqueNotes_each_name_once (track : Track.t) :
  Sorted code_unit_le (uniqueNotes track) ∧
  NoDup (uniqueNotes track) ∧
  (∀ x, x ∈ uniqueNotes track ↔ ∃ n, n ∈ Track.notes track ∧ Note.name n = x) ∧
  (length (uniqueNotes track) ≤ length (Track.notes track))%nat ∧
  (Track.notes track = [] → uniqueNotes track = []).
Proof.
  unfold uniqueNotes.
  assert (NoDup (JS.sort (Set_from (Note.name <$> Track.notes track)))) as Hnd.
  { rewrite sort_Permutation. apply Set_from_NoDup. }
  assert (∀ x, x ∈ JS.sort (Set_from (Note.name <$> Track.notes track))
               ↔ x ∈ Note.name <$> Track.notes track) as Hel.
  { intros x. by rewrite sort_Permutation, elem_of_Set_from. }
  split_and!.
  - apply sort_Sorted.
  - done.
  - intros x. rewrite Hel, list_elem_of_fmap. split.
    + intros (n & -> & Hn). eauto.
    + intros (n & Hn & <-). eauto.
  - rewrite <- (length_fmap Note.name (Track.notes track)).
    apply submseteq_length, NoDup_submseteq; [done|].
    intros x. by rewrite Hel.
  - intros ->. reflexivity.
Qed.

End ExchangeEffects.

(** ** The tutor panel *)

Section TutorPanel.

Import GeminiService MusicTutor.

Context {Json : Type}.
Variable JSON_parse : string → option Json.
Variable other : number → string.
Variable env : Env.
Variable Json_truthy : Json → bool.

(** X20. [handleAnalyze] never shows its error message: since the promise of
    the service cannot reject, a call with a song ends with [loading] false,
    [error] cleared and [analysis] set to what the promise resolved with.
    After a failed exchange that value is the fallback, and the button that
    starts the analysis is no longer rendered. Without a song the handler
    does nothing. *)
Theorem handleAnalyze_never_sets_error (d : MidiData.t)
    (st : MusicTutor.State Json) (w : World) :
  (∃ v w',
     analyzeMidiForStudents Json JSON_parse other env d w = (Resolved v, w') ∧
     handleAnalyze Json JSON_parse other env (Some d) (st, w)
     = (inr tt, ({| analysis := Some v; loading := false; error := None |}, w')) ∧
     (failure Json JSON_parse other env d →
        v = Literal fallback ∧
        showButton Json Json_truthy
          {| analysis := Some v; loading := false; error := None |} = false)) ∧
  handleAnalyze Json JSON_parse other env None (st, w) = (inr tt, (st, w)).
Proof.
  split; [|done].
  destruct (analyzeMidiForStudents Json JSON_parse other env d w) as [p w'] eqn:Hrun.
  destruct (analyze_resolves JSON_parse other env d w) as [v Hv].
  rewrite Hrun in Hv. simpl in Hv. subst p.
  exists v, w'. split; [done|]. split.
  - unfold handleAnalyze, try_catch_finally, try_catch, await, onState.
    unfold mbind, mret, M_bind, M_ret, Eff.bind, Eff.ret, modify. simpl.
    by rewrite Hrun.
  - intros (e & w1 & He)%(failure_throws JSON_parse other env d w).
    rewrite (analyze_caught _ _ _ _ _ _ _ He) in Hrun.
    injection Hrun as <- _. done.
Qed.

End TutorPanel.

Lemma handleAnalyze_never_sets_error_witness :
  MusicTutor.handleAnalyze unit parseOk printOther noKey (Some App.songData)
    (MusicTutor.mkState unit None false (Some "old"), freshWorld)
  = (inr tt,
     ({| MusicTutor.analysis := Some (GeminiService.Literal GeminiService.fallback); MusicTutor.loading := false; MusicTutor.error := None |},
      GeminiService.mkWorld [] [Error "API Key is missing"])).
Proof.
  destruct (handleAnalyze_never_sets_error parseOk printOther noKey (λ _, true)
              App.songData (MusicTutor.mkState unit None false (Some "old"))
              freshWorld) as [(v & w' & Hrun & Hstate & _) _].
  vm_compute in Hrun. injection Hrun as <- <-. exact Hstate.
Defined.

(** ** The progress bar *)

Section ProgressBar.

Import App.




End ProgressBar.

(** ** Strings and numbers at the edges of the runtime model *)

Example code_units_samples :
  code_units "C#4" = [67; 35; 52]%N ∧
  code_units "é" = [233]%N ∧
  code_units "～" = [65374]%N ∧
  code_units "😀" = [55357; 56832]%N.
Proof. by vm_compute. Qed.

Example sort_by_code_units :
  JS.sort ["～"; "😀"; "b"; "C4"; "C#4"; "C"; ""]
  = [""; "C"; "C#4"; "C4"; "b"; "😀"; "～"].
Proof. reflexivity. Qed.

Example Number_toString_samples :
  Number_toString printOther (num 120) = "120" ∧
  Number_toString printOther (of_Z (-3)) = "-3" ∧
  Number_toString printOther (of_Z (2 ^ 53)) = "9007199254740992" ∧
  Number_toString printOther (of_Z (2 ^ 64)) = printOther (of_Z (2 ^ 64)) ∧
  Number_toString printOther (num 120.5) = printOther (num 120.5).
Proof. by vm_compute. Qed.
